(** * GitPOAP backend: onboarding routes

    A shallow embedding of [src/routes/onboarding.ts]:

    - the three repository adapters ([getMappedRepo], [getMappedOrgRepo],
      [getMappedPrRepo]);
    - the aggregation pass of [GET /onboarding/github/repos], with the two
      identifier sets it mutates while filtering;
    - the repo-name-list formatter [formatRepos] and the two e-mails;
    - the submission pipeline of [POST /onboarding/intake-form], as a
      state-and-early-return monad over the record store and a trace of the
      calls made to the external collaborators;

    and of the membership resolver of [src/unnamed/part_000], as functions
    on the three tables it reads and writes.

    JavaScript numbers that hold identifiers, star counts and timestamps are
    integers here ([Z]); array indices and lengths are [nat]; [undefined] and
    [null] are [None]. *)

From Stdlib Require Import Ascii.
From stdpp Require Import base decidable option list strings pretty gmap.

Set Default Proof Using "Type".

(** ** JavaScript helpers *)

Module Js.

(** [arr.includes(x)] on an array of strings. *)
Definition includes (arr : list string) (x : string) : bool :=
  bool_decide (x ∈ arr).

(** Truthiness of an optional boolean ([undefined] is falsy). *)
Definition truthy (b : option bool) : bool := default false b.

(** [s.split(sep)] for a one-character separator: always at least one
    segment, the empty string splits to one empty segment. *)
Fixpoint split (sep : Ascii.ascii) (s : string) : list string :=
  match s with
  | EmptyString => [EmptyString]
  | String c s' =>
      if decide (c = sep) then EmptyString :: split sep s'
      else match split sep s' with
           | [] => [String c EmptyString]
           | seg :: segs => String c seg :: segs
           end
  end.

(** A value interpolated in a template literal: [undefined] prints as the
    word. *)
Definition interpolate (v : option string) : string :=
  default "undefined" v.

(** [arr.join(sep)]. *)
Fixpoint join (sep : string) (arr : list string) : string :=
  match arr with
  | [] => EmptyString
  | [x] => x
  | x :: rest => x +:+ sep +:+ join sep rest
  end.

End Js.

(** ** Data model *)

Inductive OwnerId :=
| OwnerNum (n : Z)
| OwnerStr (s : string).

Record Owner := {
  owner_id : OwnerId;
  owner_type : string;
  owner_name : string;
  owner_avatar_url : string;
  owner_url : string;
}.

(** The optional [permissions] object; every flag is itself optional. *)
Record Permissions := {
  admin : option bool;
  maintain : option bool;
  push : option bool;
  triage : option bool;
  pull : option bool;
}.

(** [type Repo]. *)
Record Repo := {
  name : string;
  full_name : string;
  githubRepoId : Z;
  description : option string;
  url : string;
  owner : Owner;
  permissions : option Permissions;
}.

(** A record of the REST listings ([listForAuthenticatedUser],
    [listForOrg]); only the fields the route reads. *)
Record RawOwner := {
  raw_owner_id : Z;
  raw_owner_type : string;
  raw_owner_login : string;
  raw_owner_avatar_url : string;
  raw_owner_html_url : string;
}.

Record RawRepo := {
  raw_name : string;
  raw_full_name : string;
  raw_id : Z;
  raw_description : option string;
  raw_html_url : string;
  raw_owner : RawOwner;
  raw_permissions : option Permissions;
  raw_fork : bool;
  raw_stargazers_count : option Z;
}.

(** [PullRequestsRes['search']['edges'][number]]. *)
Record PrOwner := {
  pr_owner_id : string;
  pr_owner_typename : string;
  pr_owner_avatarUrl : string;
  pr_owner_login : string;
  pr_owner_resourcePath : string;
}.

Record PrRepository := {
  pr_name : string;
  nameWithOwner : string;
  viewerPermission : string;
  databaseId : Z;
  pr_description : string;
  pr_url : string;
  isFork : bool;
  stargazerCount : Z;
  pr_owner : PrOwner;
}.

Record PrNode := {
  number : Z;
  title : string;
  repository : PrRepository;
}.

Record PrEdge := { node : PrNode }.

(** ** Adapters *)

Definition getMappedOrgRepo (repo : RawRepo) : Repo := {|
  name := raw_name repo;
  full_name := raw_full_name repo;
  githubRepoId := raw_id repo;
  description := raw_description repo;
  url := raw_html_url repo;
  owner := {|
    owner_id := OwnerNum (raw_owner_id (raw_owner repo));
    owner_type := raw_owner_type (raw_owner repo);
    owner_name := raw_owner_login (raw_owner repo);
    owner_avatar_url := raw_owner_avatar_url (raw_owner repo);
    owner_url := raw_owner_html_url (raw_owner repo);
  |};
  permissions := raw_permissions repo;
|}.

Definition getMappedRepo (repo : RawRepo) : Repo := {|
  name := raw_name repo;
  full_name := raw_full_name repo;
  githubRepoId := raw_id repo;
  description := raw_description repo;
  url := raw_html_url repo;
  owner := {|
    owner_id := OwnerNum (raw_owner_id (raw_owner repo));
    owner_type := raw_owner_type (raw_owner repo);
    owner_name := raw_owner_login (raw_owner repo);
    owner_avatar_url := raw_owner_avatar_url (raw_owner repo);
    owner_url := raw_owner_html_url (raw_owner repo);
  |};
  permissions := raw_permissions repo;
|}.

Definition getMappedPrRepo (pr : PrEdge) : Repo :=
  let r := repository (node pr) in {|
  name := pr_name r;
  full_name := nameWithOwner r;
  githubRepoId := databaseId r;
  description := Some (pr_description r);
  url := pr_url r;
  owner := {|
    owner_id := OwnerStr (pr_owner_id (pr_owner r));
    owner_name := pr_owner_login (pr_owner r);
    owner_type := pr_owner_typename (pr_owner r);
    owner_avatar_url := pr_owner_avatarUrl (pr_owner r);
    owner_url := pr_owner_resourcePath (pr_owner r);
  |};
  permissions := Some {|
    admin := Some (Js.includes ["ADMIN"] (viewerPermission r));
    maintain := Some (Js.includes ["MAINTAIN"; "ADMIN"] (viewerPermission r));
    push := Some (Js.includes ["WRITE"; "MAINTAIN"; "ADMIN"] (viewerPermission r));
    triage :=
      Some (Js.includes ["TRIAGE"; "WRITE"; "MAINTAIN"; "ADMIN"] (viewerPermission r));
    pull :=
      Some (Js.includes ["READ"; "WRITE"; "MAINTAIN"; "ADMIN"] (viewerPermission r));
  |};
|}.

(** The five flags as a tuple, in the order admin, maintain, push, triage,
    pull. *)
Definition flags (r : Repo) : option (bool * bool * bool * bool * bool) :=
  p ← permissions r;
  a ← admin p; m ← maintain p; w ← push p; t ← triage p; r ← pull p;
  Some (a, m, w, t, r).

(** A search edge that differs from [pr] in its permission level only. *)
Definition withViewerPermission (level : string) (pr : PrEdge) : PrEdge :=
  let n := node pr in
  let r := repository n in
  {| node := {| number := number n; title := title n;
                repository := {|
                  pr_name := pr_name r; nameWithOwner := nameWithOwner r;
                  viewerPermission := level; databaseId := databaseId r;
                  pr_description := pr_description r; pr_url := pr_url r;
                  isFork := isFork r; stargazerCount := stargazerCount r;
                  pr_owner := pr_owner r |} |} |}.

(** ** Aggregation: [GET /onboarding/github/repos] *)

(** The two sets the route creates before it fetches anything. *)
Record RepoIds := {
  foundRepoIds : gset Z;
  rejectedRepoIds : gset Z;
}.

Definition noRepoIds : RepoIds :=
  {| foundRepoIds := ∅; rejectedRepoIds := ∅ |}.

Definition addFound (id : Z) (ids : RepoIds) : RepoIds :=
  {| foundRepoIds := {[id]} ∪ foundRepoIds ids;
     rejectedRepoIds := rejectedRepoIds ids |}.

Definition addRejected (id : Z) (ids : RepoIds) : RepoIds :=
  {| foundRepoIds := foundRepoIds ids;
     rejectedRepoIds := {[id]} ∪ rejectedRepoIds ids |}.

(** [arr.filter(callback)] for a callback that updates the two sets: the
    elements are visited in order, each call sees the sets as the previous
    call left them. *)
Fixpoint filterWith {A} (callback : RepoIds → A → bool * RepoIds)
    (ids : RepoIds) (arr : list A) : list A * RepoIds :=
  match arr with
  | [] => ([], ids)
  | x :: rest =>
      let '(keep, ids1) := callback ids x in
      let '(kept, ids2) := filterWith callback ids1 rest in
      (if keep then x :: kept else kept, ids2)
  end.

(** The callback of [publicPrs.search.edges.filter]. *)
Definition prCallback (ids : RepoIds) (repo : PrEdge) : bool * RepoIds :=
  let r := repository (node repo) in
  if isFork r then (false, addRejected (databaseId r) ids)
  else
    let isFound := bool_decide (databaseId r ∈ foundRepoIds ids) in
    (negb isFound, addFound (databaseId r) ids).

(** [!repo.stargazers_count || repo.stargazers_count < 2]. *)
Definition tooFewStars (count : option Z) : bool :=
  match count with
  | None => true
  | Some n => (n =? 0)%Z || (n <? 2)%Z
  end.

(** [permissions?.admin || permissions?.maintain || permissions?.push], as
    the filter reads it (by truthiness). *)
Definition hasPermission (p : option Permissions) : bool :=
  Js.truthy (p ≫= admin) || Js.truthy (p ≫= maintain) || Js.truthy (p ≫= push).

(** The callback of the organization pass and of the personal pass (the
    source writes it out twice, identically). *)
Definition listingCallback (ids : RepoIds) (repo : RawRepo) : bool * RepoIds :=
  let isFound := bool_decide (raw_id repo ∈ foundRepoIds ids) in
  let ids1 := addFound (raw_id repo) ids in
  if isFound then (false, ids1)
  else if raw_fork repo then (false, addRejected (raw_id repo) ids1)
  else if tooFewStars (raw_stargazers_count repo)
       then (false, addRejected (raw_id repo) ids1)
  else (hasPermission (raw_permissions repo), ids1).

(** What the route holds when the [try] block is left normally. *)
Record Aggregation := {
  uniquePrRepos : list PrEdge;
  mappedPrRepos : list Repo;
  keptOrgRepos : list RawRepo;
  mappedOrgRepos : list Repo;
  keptRepos : list RawRepo;
  mappedRepos : list Repo;
  idsAfterPrs : RepoIds;
  idsAfterOrgs : RepoIds;
  idsAtEnd : RepoIds;
}.

(** The body of the [try] block on fetched data: the search edges, the
    personal listing, and one listing per organization. *)
Definition aggregate (publicPrs : list PrEdge) (repos : list RawRepo)
    (orgsWithRepos : list (list RawRepo)) : Aggregation :=
  let '(uniquePr, ids1) := filterWith prCallback noRepoIds publicPrs in
  let '(keptOrg, ids2) := filterWith listingCallback ids1 (concat orgsWithRepos) in
  let '(kept, ids3) := filterWith listingCallback ids2 repos in
  {| uniquePrRepos := uniquePr;
     mappedPrRepos := getMappedPrRepo <$> uniquePr;
     keptOrgRepos := keptOrg;
     mappedOrgRepos := getMappedOrgRepo <$> keptOrg;
     keptRepos := kept;
     mappedRepos := getMappedRepo <$> kept;
     idsAfterPrs := ids1;
     idsAfterOrgs := ids2;
     idsAtEnd := ids3 |}.

Definition allRepos (agg : Aggregation) : list Repo :=
  mappedRepos agg ++ mappedOrgRepos agg ++ mappedPrRepos agg.

Inductive ReposResponse :=
| ReposOk (cacheControl : string) (body : list Repo)
| ReposFailed (message : string).

(** The route; a fetch that throws is [None], and the first one that does
    sends the 400. *)
Definition githubRepos (publicPrs : option (list PrEdge))
    (repos : option (list RawRepo))
    (orgsWithRepos : option (list (list RawRepo))) : nat * ReposResponse :=
  match publicPrs, repos, orgsWithRepos with
  | Some prs, Some rs, Some orgs =>
      (200, ReposOk "s-maxage=300, stale-while-revalidate=1800"
              (allRepos (aggregate prs rs orgs)))
  | _, _, _ => (400, ReposFailed "Failed to fetch repos for GitHub user")
  end.

(** Statement vocabulary: the identifier of a search edge, and a listing
    record that passes the fork, star and permission checks. *)
Definition prId (e : PrEdge) : Z := databaseId (repository (node e)).

Definition prFork (e : PrEdge) : bool := isFork (repository (node e)).

Definition eligible (repo : RawRepo) : bool :=
  negb (raw_fork repo) && negb (tooFewStars (raw_stargazers_count repo))
  && hasPermission (raw_permissions repo).

(** ** Notification: the repo-name list and the two e-mails *)

(** [formatRepos] is typed on [Repo[]] and called on the parsed [repos]
    field of the form; it reads [full_name] only. *)
Class HasFullName (A : Type) := get_full_name : A → string.

Global Instance Repo_HasFullName : HasFullName Repo := full_name.

(** [repo.full_name.split('/')[1]], as a template literal prints it. *)
Definition repoName `{HasFullName A} (repo : A) : string :=
  Js.interpolate (Js.split "/"%char (get_full_name repo) !! 1).

(** The [for] loop of [formatRepos] at index [i]; [rest] holds
    [repos[i]], [repos[i + 1]], ... and [len] is [repos.length]. The last
    branch is the [break]. *)
Fixpoint formatRepos_from `{HasFullName A} (len i : nat) (rest : list A)
    (response : string) : string :=
  match rest with
  | [] => response
  | repo :: rest' =>
      if i + 1 =? len then
        formatRepos_from len (S i) rest' (response +:+ ", and " +:+ repoName repo)
      else if i <? 5 then
        formatRepos_from len (S i) rest' (response +:+ ", " +:+ repoName repo)
      else
        response +:+ ", and " +:+ pretty (len - 5) +:+ " more"
  end.

(** [formatRepos]; [None] is the TypeError of reading [full_name] of
    [repos[0]] when the array is empty. *)
Definition formatRepos `{HasFullName A} (repos : list A) : option string :=
  match repos with
  | [] => None
  | first :: rest => Some (formatRepos_from (length repos) 1 rest (repoName first))
  end.

(** The repo-name list in the words of the specification, for a list of
    names: one name alone; up to [cutoff] names, all of them comma-joined
    with "and " before the last; beyond [cutoff], the first five
    comma-joined, then ", and K more" with K the number of names less five.
    The specification has [cutoff = 5]. *)
Definition listedNames (cutoff : nat) (names : list string) : string :=
  match names with
  | [] => EmptyString
  | [one] => one
  | _ =>
      if bool_decide (length names ≤ cutoff) then
        Js.join ", " (removelast names) +:+ ", and " +:+ List.last names EmptyString
      else
        Js.join ", " (take 5 names) +:+ ", and "
          +:+ pretty (length names - 5) +:+ " more"
  end.

(** A text without the character [/]. *)
Fixpoint slashFree (s : string) : Prop :=
  match s with
  | EmptyString => True
  | String c s' => c ≠ "/"%char ∧ slashFree s'
  end.

(** One entry of the [repos] field of the form, after [JSON.parse]. *)
Record SelectedRepo := {
  sel_full_name : string;
  sel_githubRepoId : string;
  sel_admin : bool;
  sel_maintain : option bool;
  sel_push : bool;
  sel_triage : option bool;
  sel_pull : bool;
}.

Global Instance SelectedRepo_HasFullName : HasFullName SelectedRepo :=
  sel_full_name.

(** [type IntakeForm]; [repos] is the parsed value of the JSON text the
    form carries. *)
Record IntakeForm := {
  form_name : option string;
  email : string;
  notes : option string;
  githubHandle : string;
  shouldGitPOAPDesign : string;
  isOneGitPOAPPerRepo : string;
  repos : list SelectedRepo;
}.

(** The fields of [TemplateModel] that depend on the submission (the rest
    are fixed texts); [queue_number] is [None] for the empty text that
    stands in for an undefined number. *)
Record TemplateModel := {
  tm_to : string;
  tm_queue_number : option nat;
  tm_name : option string;
  tm_email : string;
  tm_githubHandle : string;
  tm_shouldGitPOAPDesign : string;
  tm_isOneGitPOAPPerRepo : string;
  tm_notes : option string;
  tm_repos : string;
}.

(** The internal message: its subject and what its text body prints. *)
Record InternalEmail := {
  ie_subject : string;
  ie_queueNumber : option nat;
  ie_form : IntakeForm;
  ie_repos : list string;
  ie_images : list string;
}.

(** The argument of [postmarkClient.sendEmailWithTemplate]; [None] when
    building it throws. *)
Definition confirmationModel (formData : IntakeForm) (queueNumber : option nat)
    : option TemplateModel :=
  list ← formatRepos (repos formData);
  Some {|
    tm_to := email formData;
    tm_queue_number := queueNumber;
    tm_name := form_name formData;
    tm_email := email formData;
    tm_githubHandle := githubHandle formData;
    tm_shouldGitPOAPDesign :=
      if bool_decide (shouldGitPOAPDesign formData = "true") then "GitPOAP" else "You";
    tm_isOneGitPOAPPerRepo :=
      if bool_decide (isOneGitPOAPPerRepo formData = "true")
      then "One Per Repo" else "One For All";
    tm_notes := notes formData;
    tm_repos := list;
  |}.

Definition internalEmail (formData : IntakeForm) (queueNumber : option nat)
    (urls : list string) : InternalEmail := {|
  ie_subject :=
    "New intake form submission from " +:+ githubHandle formData +:+ " / "
      +:+ email formData +:+ " ";
  ie_queueNumber := queueNumber;
  ie_form := formData;
  ie_repos := sel_full_name <$> repos formData;
  ie_images := urls;
|}.

(** ** Submission: [POST /onboarding/intake-form] *)

Record ItemRepo := {
  ir_full_name : string;
  ir_githubRepoId : string;
  ir_admin : bool;
  ir_maintain : bool;
  ir_push : bool;
  ir_triage : bool;
  ir_pull : bool;
}.

(** An item of the intake-form table, without its two key attributes.
    [item_images] is [None] while the item has no [images] attribute. *)
Record IntakeItem := {
  item_name : string;
  item_email : string;
  item_notes : string;
  item_githubHandle : string;
  item_shouldGitPOAPDesign : bool;
  item_isOneGitPOAPPerRepo : bool;
  item_repos : list ItemRepo;
  item_isComplete : bool;
  item_images : option (list string);
}.

(** The key attributes: ['email-githubHandle'] and [timestamp]. *)
Abbreviation ItemKey := (string * Z)%type.

(** [Boolean(s)] on a string. *)
Definition jsBoolean (s : string) : bool := bool_decide (s ≠ EmptyString).

Definition createIntakeFormDocForDynamo (formData : IntakeForm) (timestamp : Z)
    : ItemKey * IntakeItem :=
  ((email formData +:+ "-" +:+ githubHandle formData, timestamp),
   {| item_name := default EmptyString (form_name formData);
      item_email := email formData;
      item_notes := default EmptyString (notes formData);
      item_githubHandle := githubHandle formData;
      item_shouldGitPOAPDesign := jsBoolean (shouldGitPOAPDesign formData);
      item_isOneGitPOAPPerRepo := jsBoolean (isOneGitPOAPPerRepo formData);
      item_repos :=
        (λ repo, {| ir_full_name := sel_full_name repo;
                    ir_githubRepoId := sel_githubRepoId repo;
                    ir_admin := sel_admin repo;
                    ir_maintain := default false (sel_maintain repo);
                    ir_push := sel_push repo;
                    ir_triage := default false (sel_triage repo);
                    ir_pull := sel_pull repo |}) <$> repos formData;
      item_isComplete := false;
      item_images := None |}).

Definition createUpdateItemParamsForImages (key : string) (timestamp : Z)
    (imageUrls : list string) : ItemKey * list string :=
  ((key, timestamp), imageUrls).

(** [set images = :images] on an item. *)
Definition setImages (imageUrls : list string) (item : IntakeItem) : IntakeItem :=
  {| item_name := item_name item;
     item_email := item_email item;
     item_notes := item_notes item;
     item_githubHandle := item_githubHandle item;
     item_shouldGitPOAPDesign := item_shouldGitPOAPDesign item;
     item_isOneGitPOAPPerRepo := item_isOneGitPOAPPerRepo item;
     item_repos := item_repos item;
     item_isComplete := item_isComplete item;
     item_images := Some imageUrls |}.

Record MulterFile := {
  originalname : string;
  size_bytes : nat;
}.

Record Request := {
  body : IntakeForm;
  files : list MulterFile;
}.

Inductive ResponseBody :=
| BIssues (issues : list string)
| BMsg (msg : string)
| BSubmitted (formData : IntakeForm) (queueNumber : option nat) (msg : string).

Record Response := {
  status : nat;
  sent : ResponseBody;
}.

Inductive ErrorSite :=
| PutItemFailed
| UploadFailed
| UpdateItemFailed
| EmailFailed.

(** The calls the route makes to its collaborators, in the order it makes
    them. Logging is recorded at the warn and error levels only. The index
    of [CUpload] is the position of the image in [req.files]; the object key
    ends with it. *)
Inductive Call :=
| CPutItem (key : ItemKey) (item : IntakeItem)
| CUpload (index : nat) (bucket key : string)
| CUpdateItem (key : ItemKey) (imageUrls : list string)
| CScan
| CSendEmailWithTemplate (model : TemplateModel)
| CSendEmail (mail : InternalEmail)
| CLogWarn (issues : list string)
| CLogError (site : ErrorSite)
| CEndTimer (status : nat).

(** How the collaborators answer during one request: the verdicts of the
    three schemas of [schemas/onboarding] ([None] is success), which calls
    throw, and the bucket name and URL scheme of [external/s3]. *)
Record Env := {
  formIssues : option (list string);
  reposIssues : option (list string);
  imageIssues : option (list string);
  putItemFails : bool;
  uploadFails : nat → bool;
  updateItemFails : bool;
  scanFails : bool;
  sendEmailWithTemplateFails : bool;
  sendEmailFails : bool;
  bucketName : string;
  getS3URL : string → string → string;
}.

(** The table, the two locals the route assigns to ([urls], [tableCount]),
    and the calls made so far. *)
Record PipeState := {
  table : gmap ItemKey IntakeItem;
  urls : list string;
  tableCount : option nat;
  trace : list Call;
}.

Inductive Step (A : Type) :=
| Next (a : A)
| Thrown
| Responded (r : Response).
Arguments Next {A} a.
Arguments Thrown {A}.
Arguments Responded {A} r.

(** A computation of the route: it runs on, throws, or returns from the
    handler with a response. *)
Definition Route (A : Type) : Type := PipeState → Step A * PipeState.

Global Instance Route_ret : MRet Route := λ A a s, (Next a, s).

Global Instance Route_bind : MBind Route := λ A B f m s,
  match m s with
  | (Next a, s') => f a s'
  | (Thrown, s') => (Thrown, s')
  | (Responded r, s') => (Responded r, s')
  end.

Definition throw {A} : Route A := λ s, (Thrown, s).

Definition respond {A} (code : nat) (b : ResponseBody) : Route A :=
  λ s, (Responded {| status := code; sent := b |}, s).

Definition tryCatch (block handler : Route unit) : Route unit := λ s,
  match block s with
  | (Thrown, s') => handler s'
  | other => other
  end.

(** The state after the calls [cs] have been recorded. *)
Definition logged (cs : list Call) (s : PipeState) : PipeState :=
  {| table := table s; urls := urls s; tableCount := tableCount s;
     trace := trace s ++ cs |}.

Definition call (c : Call) : Route unit := λ s, (Next (), logged [c] s).

Definition modifyTable (f : gmap ItemKey IntakeItem → gmap ItemKey IntakeItem)
    : Route unit := λ s,
  (Next (), {| table := f (table s); urls := urls s;
               tableCount := tableCount s; trace := trace s |}).

Definition getTable : Route (gmap ItemKey IntakeItem) := λ s, (Next (table s), s).

Definition getUrls : Route (list string) := λ s, (Next (urls s), s).

Definition pushUrl (u : string) : Route unit := λ s,
  (Next (), {| table := table s; urls := urls s ++ [u];
               tableCount := tableCount s; trace := trace s |}).

Definition getTableCount : Route (option nat) := λ s, (Next (tableCount s), s).

Definition setTableCount (c : option nat) : Route unit := λ s,
  (Next (), {| table := table s; urls := urls s; tableCount := c;
               trace := trace s |}).

(** *** The collaborators *)

(** [dynamoDBClient.send(new PutItemCommand(params))]. *)
Definition putItem (env : Env) (key : ItemKey) (item : IntakeItem) : Route unit :=
  call (CPutItem key item);;
  if putItemFails env then throw else modifyTable (insert key item).

(** [uploadMulterFile(image, bucket, key)]. *)
Definition uploadMulterFile (env : Env) (index : nat) (image : MulterFile)
    (bucket key : string) : Route unit :=
  call (CUpload index bucket key);;
  if uploadFails env index then throw else mret ().

(** [dynamoDBClient.send(new UpdateItemCommand(updateParams))]. *)
Definition updateItem (env : Env) (key : ItemKey) (imageUrls : list string)
    : Route unit :=
  call (CUpdateItem key imageUrls);;
  if updateItemFails env then throw else modifyTable (alter (setImages imageUrls) key).

(** The COUNT scan with the filter [isComplete = false]. *)
Definition scanIncomplete (env : Env) : Route (option nat) :=
  call CScan;;
  if scanFails env then throw
  else t ← getTable;
       mret (Some (size (filter (λ kv, item_isComplete kv.2 = false) t))).

Definition sendConfirmationEmail (env : Env) (formData : IntakeForm)
    (queueNumber : option nat) : Route unit :=
  match confirmationModel formData queueNumber with
  | None => throw
  | Some model =>
      call (CSendEmailWithTemplate model);;
      if sendEmailWithTemplateFails env then throw else mret ()
  end.

Definition sendInternalConfirmationEmail (env : Env) (formData : IntakeForm)
    (queueNumber : option nat) (imageUrls : list string) : Route unit :=
  call (CSendEmail (internalEmail formData queueNumber imageUrls));;
  if sendEmailFails env then throw else mret ().

(** *** The handler *)

(** What the handler does with the verdict of a schema: on failure it
    logs the issues, stops the timer and returns the 400 that lists them. *)
Definition rejectIssues (verdict : option (list string)) : Route unit :=
  match verdict with
  | Some issues =>
      call (CLogWarn issues);; call (CEndTimer 400);; respond 400 (BIssues issues)
  | None => mret ()
  end.

(** The shape of every [catch] that ends the request: log the error,
    stop the timer, return the 400 with its message. *)
Definition failWith (site : ErrorSite) (msg : string) : Route unit :=
  call (CLogError site);; call (CEndTimer 400);; respond 400 (BMsg msg).

(** The object key of the image at [index]. *)
Definition objectKey (req : Request) (unixTime : Z) (index : nat) : string :=
  pretty unixTime +:+ "-" +:+ githubHandle (body req) +:+ "-"
    +:+ email (body req) +:+ "-" +:+ pretty index.

(** The body of the [for] loop over [images.entries()]: the [try] block
    and its [catch]. *)
Definition uploadImage (env : Env) (req : Request) (unixTime : Z) (index : nat)
    (image : MulterFile) : Route unit :=
  tryCatch
    (let key := objectKey req unixTime index in
     uploadMulterFile env index image (bucketName env) key;;
     pushUrl (getS3URL env (bucketName env) key))
    (failWith UploadFailed "Failed to submit intake form assets to S3").

(** The loop, from [index] on. *)
Fixpoint uploadImages (env : Env) (req : Request) (unixTime : Z) (index : nat)
    (images : list MulterFile) : Route unit :=
  match images with
  | [] => mret ()
  | image :: rest =>
      uploadImage env req unixTime index image;;
      uploadImages env req unixTime (S index) rest
  end.

(** The handler, block by block. *)

(** [/* Validate form data */], [/* Validate repos array */],
    [/* Validate image files array */]. *)
Definition validate (env : Env) : Route unit :=
  rejectIssues (formIssues env);;
  rejectIssues (reposIssues env);;
  rejectIssues (imageIssues env).

(** [/* Push results to Dynamo DB */]. *)
Definition persist (env : Env) (req : Request) (unixTime : Z) : Route unit :=
  tryCatch
    (let '(key, item) := createIntakeFormDocForDynamo (body req) unixTime in
     putItem env key item)
    (failWith PutItemFailed "Failed to submit intake form").

(** [/* Push images to S3 */] and the update of the record that follows
    the loop. *)
Definition pushImages (env : Env) (req : Request) (unixTime : Z) : Route unit :=
  if bool_decide (0 < length (files req)) then
    uploadImages env req unixTime 0 (files req);;
    imageUrls ← getUrls;
    let '(key, imageUrls) :=
      createUpdateItemParamsForImages
        (email (body req) +:+ "-" +:+ githubHandle (body req)) unixTime imageUrls in
    tryCatch (updateItem env key imageUrls)
      (failWith UpdateItemFailed "Failed to submit image URLs to DynamoDB")
  else mret ().

(** The [try] block that counts the incomplete items and sends the two
    e-mails, with its [catch]. *)
Definition notify (env : Env) (req : Request) : Route unit :=
  tryCatch
    (count ← scanIncomplete env;
     setTableCount count;;
     sendConfirmationEmail env (body req) count;;
     imageUrls ← getUrls;
     sendInternalConfirmationEmail env (body req) count imageUrls)
    (call (CLogError EmailFailed)).

Definition finish (req : Request) : Route unit :=
  call (CEndTimer 200);;
  queueNumber ← getTableCount;
  respond 200 (BSubmitted (body req) queueNumber "Successfully submitted intake form").

Definition intakeForm (env : Env) (req : Request) (unixTime : Z) : Route unit :=
  validate env;;
  persist env req unixTime;;
  pushImages env req unixTime;;
  notify env req;;
  finish req.

(** One request against a table: the response sent, if any, and the state
    the handler leaves. *)
Definition postIntakeForm (env : Env) (req : Request) (unixTime : Z)
    (table0 : gmap ItemKey IntakeItem) : option Response * PipeState :=
  match intakeForm env req unixTime
          {| table := table0; urls := []; tableCount := None; trace := [] |} with
  | (Responded r, s) => (Some r, s)
  | (_, s) => (None, s)
  end.

(** Statement vocabulary: the upload the loop makes at an index and the URL
    it records; the indices of the uploads in a trace; the calls to the mail
    service; the writes to the table. *)
Definition uploadCall (env : Env) (req : Request) (unixTime : Z) (index : nat)
    : Call :=
  CUpload index (bucketName env) (objectKey req unixTime index).

Definition imageUrl (env : Env) (req : Request) (unixTime : Z) (index : nat)
    : string :=
  getS3URL env (bucketName env) (objectKey req unixTime index).

(** The calls of a request whose record is written, whose images (if any)
    are all uploaded and whose record is then updated. *)
Definition recordedCalls (env : Env) (req : Request) (unixTime : Z) : list Call :=
  let '(key, item) := createIntakeFormDocForDynamo (body req) unixTime in
  CPutItem key item ::
    if bool_decide (0 < length (files req)) then
      (uploadCall env req unixTime <$> seq 0 (length (files req)))
      ++ [CUpdateItem key (imageUrl env req unixTime <$> seq 0 (length (files req)))]
    else [].

Definition uploadIndices (tr : list Call) : list nat :=
  omap (λ c, match c with CUpload i _ _ => Some i | _ => None end) tr.

Definition isMail (c : Call) : bool :=
  match c with
  | CSendEmailWithTemplate _ | CSendEmail _ => true
  | _ => false
  end.

Definition isTableWrite (c : Call) : bool :=
  match c with
  | CPutItem _ _ | CUpdateItem _ _ => true
  | _ => false
  end.

(** ** Sample data *)

Definition octocat : RawOwner := {|
  raw_owner_id := 583231;
  raw_owner_type := "User";
  raw_owner_login := "octocat";
  raw_owner_avatar_url := "https://avatars.githubusercontent.com/u/583231";
  raw_owner_html_url := "https://github.com/octocat";
|}.

Definition octocatNode : PrOwner := {|
  pr_owner_id := "MDQ6VXNlcjU4MzIzMQ==";
  pr_owner_typename := "User";
  pr_owner_avatarUrl := "https://avatars.githubusercontent.com/u/583231";
  pr_owner_login := "octocat";
  pr_owner_resourcePath := "/octocat";
|}.

Definition canPush : option Permissions :=
  Some {| admin := Some false; maintain := Some false; push := Some true;
          triage := Some true; pull := Some true |}.

(** A record of a REST listing. *)
Definition listed (id : Z) (repoName note : string) (fork : bool)
    (stars : option Z) (perms : option Permissions) : RawRepo := {|
  raw_name := repoName;
  raw_full_name := "octocat/" +:+ repoName;
  raw_id := id;
  raw_description := Some note;
  raw_html_url := "https://github.com/octocat/" +:+ repoName;
  raw_owner := octocat;
  raw_permissions := perms;
  raw_fork := fork;
  raw_stargazers_count := stars;
|}.

(** An edge of the pull-request search. *)
Definition searched (id : Z) (repoName level : string) (fork : bool) (stars : Z)
    : PrEdge := {|
  node := {|
    number := 1;
    title := "Fix typo";
    repository := {|
      pr_name := repoName;
      nameWithOwner := "octocat/" +:+ repoName;
      viewerPermission := level;
      databaseId := id;
      pr_description := "found through a merged pull request";
      pr_url := "https://github.com/octocat/" +:+ repoName;
      isFork := fork;
      stargazerCount := stars;
      pr_owner := octocatNode;
    |} |} |}.

(** The same repository, once in the personal listing and once in the
    listing of an organization. *)
Definition helloPersonal : RawRepo :=
  listed 7 "hello" "from the personal listing" false (Some 10%Z) canPush.

Definition helloOrg : RawRepo :=
  listed 7 "hello" "from the organization listing" false (Some 10%Z) canPush.

(** A repository with no stars that the user can only read, found through
    the search. *)
Definition quietPr : PrEdge := searched 11 "quiet" "READ" false 0.

(** A fork listed first, and the same identifier listed again by a record
    that would pass every check. *)
Definition spoonFork : RawRepo :=
  listed 5 "spoon" "a fork" true (Some 40%Z) canPush.

Definition spoonAgain : RawRepo :=
  listed 5 "spoon" "listed again" false (Some 40%Z) canPush.

(** A selection of the form, by full name. *)
Definition chosen (full : string) : SelectedRepo := {|
  sel_full_name := full;
  sel_githubRepoId := "1296269";
  sel_admin := true;
  sel_maintain := None;
  sel_push := true;
  sel_triage := None;
  sel_pull := true;
|}.

Definition fiveChosen : list SelectedRepo :=
  chosen <$> ["octocat/b"; "octocat/c"; "octocat/d"; "octocat/e"; "octocat/f"].

Definition sixChosen : list SelectedRepo := chosen "octocat/a" :: fiveChosen.

Definition formOf (selection : list SelectedRepo) : IntakeForm := {|
  form_name := Some "Mona";
  email := "mona@example.org";
  notes := None;
  githubHandle := "octocat";
  shouldGitPOAPDesign := "true";
  isOneGitPOAPPerRepo := "false";
  repos := selection;
|}.

Definition picture (n : string) : MulterFile :=
  {| originalname := n; size_bytes := 2048 |}.

(** A request with one selected repository and no image, and one with four
    images. *)
Definition plainRequest : Request :=
  {| body := formOf [chosen "octocat/hello"]; files := [] |}.

Definition fourImages : Request :=
  {| body := formOf [chosen "octocat/hello"];
     files := picture <$> ["0.png"; "1.png"; "2.png"; "3.png"] |}.

(** Every collaborator answers. *)
Definition calm : Env := {|
  formIssues := None;
  reposIssues := None;
  imageIssues := None;
  putItemFails := false;
  uploadFails := λ _, false;
  updateItemFails := false;
  scanFails := false;
  sendEmailWithTemplateFails := false;
  sendEmailFails := false;
  bucketName := "intake-form";
  getS3URL := λ bucket key, "https://" +:+ bucket +:+ ".s3.amazonaws.com/" +:+ key;
|}.

(** The COUNT scan throws; everything else answers. *)
Definition scanDown : Env := {|
  formIssues := None;
  reposIssues := None;
  imageIssues := None;
  putItemFails := false;
  uploadFails := λ _, false;
  updateItemFails := false;
  scanFails := true;
  sendEmailWithTemplateFails := false;
  sendEmailFails := false;
  bucketName := "intake-form";
  getS3URL := getS3URL calm;
|}.

(** The upload of the image at index 2 throws; everything else answers. *)
Definition thirdUploadDown : Env := {|
  formIssues := None;
  reposIssues := None;
  imageIssues := None;
  putItemFails := false;
  uploadFails := λ index, bool_decide (index = 2);
  updateItemFails := false;
  scanFails := false;
  sendEmailWithTemplateFails := false;
  sendEmailFails := false;
  bucketName := "intake-form";
  getS3URL := getS3URL calm;
|}.

(** ** Vocabulary for the properties of the submission route *)

(** The issues of the first schema that fails, in the order the handler
    runs them. *)
Definition firstIssues (env : Env) : option (list string) :=
  match formIssues env with
  | Some issues => Some issues
  | None =>
      match reposIssues env with
      | Some issues => Some issues
      | None => imageIssues env
      end
  end.

(** The state a request starts from. *)
Definition initial (table0 : gmap ItemKey IntakeItem) : PipeState :=
  {| table := table0; urls := []; tableCount := None; trace := [] |}.

(** The number the COUNT scan returns on a table. *)
Definition incompleteCount (t : gmap ItemKey IntakeItem) : nat :=
  size (filter (λ kv, item_isComplete kv.2 = false) t).

(** Every stage that can fail the request succeeds: the three schemas, the
    write of the record, every upload, and the update when there are
    images. *)
Definition accepted (env : Env) (req : Request) : bool :=
  bool_decide (firstIssues env = None)
  && negb (putItemFails env)
  && forallb (λ j, negb (uploadFails env j)) (seq 0 (length (files req)))
  && (bool_decide (length (files req) = 0) || negb (updateItemFails env)).

(** The calls of the [try] block after a scan that answered [queueNumber]:
    the two e-mails as far as they get, and the log of the [catch]. *)
Definition mailCalls (env : Env) (formData : IntakeForm) (queueNumber : option nat)
    (imageUrls : list string) : list Call :=
  match confirmationModel formData queueNumber with
  | None => [CLogError EmailFailed]
  | Some model =>
      CSendEmailWithTemplate model ::
      if sendEmailWithTemplateFails env then [CLogError EmailFailed]
      else CSendEmail (internalEmail formData queueNumber imageUrls) ::
           if sendEmailFails env then [CLogError EmailFailed] else []
  end.

Definition isEndTimer (c : Call) : bool :=
  match c with
  | CEndTimer _ => true
  | _ => false
  end.

(** The table after the record of a request is written and, when the
    request has images, updated with their URLs. *)
Definition storedTable (env : Env) (req : Request) (unixTime : Z)
    (table0 : gmap ItemKey IntakeItem) : gmap ItemKey IntakeItem :=
  let '(key, item) := createIntakeFormDocForDynamo (body req) unixTime in
  if bool_decide (0 < length (files req)) then
    alter (setImages (imageUrl env req unixTime <$> seq 0 (length (files req))))
      key (<[key:=item]> table0)
  else <[key:=item]> table0.

(** The calls of the [try] block of the notifications on a table. *)
Definition notifyCalls (env : Env) (req : Request) (unixTime : Z)
    (t : gmap ItemKey IntakeItem) : list Call :=
  CScan ::
    if scanFails env then [CLogError EmailFailed]
    else mailCalls env (body req) (Some (incompleteCount t))
           (imageUrl env req unixTime <$> seq 0 (length (files req))).

(** ** More sample data *)

(** The collaborators of [calm], with the given failures. *)
Definition failing (form : option (list string)) (put update scan template mail : bool)
    (upload : nat → bool) : Env := {|
  formIssues := form;
  reposIssues := None;
  imageIssues := None;
  putItemFails := put;
  uploadFails := upload;
  updateItemFails := update;
  scanFails := scan;
  sendEmailWithTemplateFails := template;
  sendEmailFails := mail;
  bucketName := bucketName calm;
  getS3URL := getS3URL calm;
|}.

Definition badForm : Env :=
  failing (Some ["email: Invalid email"]) false false false false false (λ _, false).

Definition putDown : Env := failing None true false false false false (λ _, false).

Definition updateDown : Env := failing None false true false false false (λ _, false).

Definition templateDown : Env := failing None false false false true false (λ _, false).


(** A form whose two choices are the text "false". *)
Definition declining : IntakeForm := {|
  form_name := Some "Mona";
  email := "mona@example.org";
  notes := None;
  githubHandle := "octocat";
  shouldGitPOAPDesign := "false";
  isOneGitPOAPPerRepo := "false";
  repos := [chosen "octocat/hello"];
|}.

(** ** Team memberships: the resolver of [src/unnamed/part_000]

    The resolver works on three tables through Prisma. Of each table the
    model keeps what the resolver names: of a team its identifier and the
    address of its owner, of an address its text and identifier, of a
    membership the two identifiers that make its compound unique key
    [teamId_addressId], its role, its acceptance status and the date of
    joining. Enumeration values are the texts they are at run time. A call
    that Prisma rejects ([create] on a key that is taken, [delete] on a key
    that is free) is [Raised]: the resolver does not catch it. Logging is
    left out. *)

(** [c.toLowerCase()] on a character of the ASCII range. *)
Definition lowerChar (c : Ascii.ascii) : Ascii.ascii :=
  if bool_decide (65 ≤ nat_of_ascii c ≤ 90) then ascii_of_nat (nat_of_ascii c + 32)
  else c.

(** [s.toLowerCase()]. *)
Fixpoint toLowerCase (s : string) : string :=
  match s with
  | EmptyString => EmptyString
  | String c s' => String (lowerChar c) (toLowerCase s')
  end.

Record Membership := {
  teamId : Z;
  addressId : Z;
  role : string;
  acceptanceStatus : string;
  joinedOn : option Z;
}.

Record Db := {
  teams : gmap Z string;
  addresses : gmap string Z;
  memberships : gmap (Z * Z) Membership;
}.

(** [userAccessTokenPayload], when it is not [null]. *)
Record TokenPayload := { address : string }.

Record MembershipMutationPayload := {
  membership : option Membership;
  error : option string;
}.

Record TeamMemberships := {
  totalCount : nat;
  team_memberships : list Membership;
  team_error : option string;
}.

Inductive Outcome (A : Type) :=
| Returned (a : A)
| Raised.
Arguments Returned {A} a.
Arguments Raised {A}.

Inductive OrderBy :=
| JoinedOnDesc
| RoleAsc
| AcceptanceStatusAsc.

Definition withMemberships (ms : gmap (Z * Z) Membership) (db : Db) : Db :=
  {| teams := teams db; addresses := addresses db; memberships := ms |}.

Definition failed (message : string) : MembershipMutationPayload :=
  {| membership := None; error := Some message |}.

Definition succeeded (m : Membership) : MembershipMutationPayload :=
  {| membership := Some m; error := None |}.

(** The memberships of an address, for [findMany] with a [where] on the
    address text; the order is the one of the table. *)
Definition membershipsOfAddress (ethAddress : string) (db : Db) : list Membership :=
  match addresses db !! ethAddress with
  | None => []
  | Some id =>
      (map_to_list (filter (λ kv, addressId kv.2 = id) (memberships db))).*2
  end.

Definition userMemberships (payload : option TokenPayload) (db : Db)
    : option (list Membership) :=
  match payload with
  | None => None
  | Some p => Some (membershipsOfAddress (toLowerCase (address p)) db)
  end.

(** The text ["page" and "perPage" must be specified together], with its
    quotation marks. *)
Definition pageAndPerPageTogether : string :=
  String (ascii_of_nat 34) "page" +:+ String (ascii_of_nat 34) " and "
    +:+ String (ascii_of_nat 34) "perPage" +:+ String (ascii_of_nat 34)
          " must be specified together".

Definition teamFailed (message : string) : TeamMemberships :=
  {| totalCount := 0; team_memberships := []; team_error := Some message |}.

(** [teamMemberships]; [findMany] is the query with its [orderBy], [skip]
    and [take], which Prisma and the database answer. Where [skip] is
    computed [perPage] is not [null]: the check before it has passed. *)
Definition teamMemberships
    (findMany : OrderBy → option Z → option Z → Z → Db → list Membership)
    (payload : option TokenPayload) (team : Z) (sort : string)
    (perPage page : option Z) (db : Db) : TeamMemberships :=
  match payload with
  | None => teamFailed "Not authenticated"
  | Some p =>
      match
        (if bool_decide (sort = "date") then Some JoinedOnDesc
         else if bool_decide (sort = "role") then Some RoleAsc
         else if bool_decide (sort = "acceptance_status") then Some AcceptanceStatusAsc
         else None)
      with
      | None => teamFailed ("Unknown value provided for sort: " +:+ sort)
      | Some orderBy =>
          if (bool_decide (page = None) || bool_decide (perPage = None))
             && bool_decide (page ≠ perPage)
          then teamFailed pageAndPerPageTogether
          else
            match teams db !! team with
            | None => teamFailed "Team not found"
            | Some ownerAddress =>
                if bool_decide (toLowerCase ownerAddress ≠ toLowerCase (address p))
                then teamFailed "Not authorized"
                else
                  {| totalCount :=
                       size (filter (λ kv, teamId kv.2 = team) (memberships db));
                     team_memberships :=
                       findMany orderBy
                         (match page with
                          | Some n =>
                              if bool_decide (n = 0%Z) then None
                              else Some ((n - 1) * default 0 perPage)%Z
                          | None => None
                          end)
                         perPage team db;
                     team_error := None |}
            end
      end
  end.

(** The checks [addNewMembership] and [removeMembership] start with: the
    caller is authenticated, the team exists, the caller owns it, the
    address is known. The result is the identifier of the address. *)
Definition ownerAndAddress (payload : option TokenPayload) (team : Z)
    (addr : string) (db : Db) : MembershipMutationPayload + Z :=
  match payload with
  | None => inl (failed "Not authenticated")
  | Some p =>
      match teams db !! team with
      | None => inl (failed ("Team not found for teamId: " +:+ pretty team))
      | Some ownerAddress =>
          if bool_decide (toLowerCase ownerAddress ≠ toLowerCase (address p))
          then inl (failed "Not authorized")
          else
            match addresses db !! toLowerCase addr with
            | None => inl (failed ("Address not found for address: " +:+ addr))
            | Some id => inr id
            end
      end
  end.

Definition addNewMembership (payload : option TokenPayload) (team : Z)
    (addr : string) (db : Db) : Outcome MembershipMutationPayload * Db :=
  match ownerAndAddress payload team addr db with
  | inl refusal => (Returned refusal, db)
  | inr id =>
      match memberships db !! (team, id) with
      | Some _ => (Raised, db)
      | None =>
          let created :=
            {| teamId := team; addressId := id; role := "ADMIN";
               acceptanceStatus := "PENDING"; joinedOn := None |} in
          (Returned (succeeded created),
           withMemberships (<[(team, id) := created]> (memberships db)) db)
      end
  end.

Definition removeMembership (payload : option TokenPayload) (team : Z)
    (addr : string) (db : Db) : Outcome MembershipMutationPayload * Db :=
  match ownerAndAddress payload team addr db with
  | inl refusal => (Returned refusal, db)
  | inr id =>
      match memberships db !! (team, id) with
      | None => (Raised, db)
      | Some deleted =>
          (Returned (succeeded deleted),
           withMemberships (delete (team, id) (memberships db)) db)
      end
  end.

(** [acceptMembership]; [now] is [DateTime.now()]. *)
Definition acceptMembership (payload : option TokenPayload) (team : Z) (now : Z)
    (db : Db) : Outcome MembershipMutationPayload * Db :=
  match payload with
  | None => (Returned (failed "Not authenticated"), db)
  | Some p =>
      match teams db !! team with
      | None =>
          (Returned (failed ("Team not found for teamId: " +:+ pretty team)), db)
      | Some _ =>
          match addresses db !! toLowerCase (address p) with
          | None =>
              (Returned (failed ("Address not found for address: " +:+ address p)), db)
          | Some id =>
              match memberships db !! (team, id) with
              | None =>
                  (Returned (failed ("Membership not found for team " +:+ pretty team
                                       +:+ " address: " +:+ address p)), db)
              | Some m =>
                  if bool_decide (acceptanceStatus m ≠ "PENDING") then
                    (Returned (failed ("Membership is already accepted: "
                                         +:+ address p)), db)
                  else
                    let result :=
                      {| teamId := teamId m; addressId := addressId m; role := role m;
                         acceptanceStatus := "ACCEPTED"; joinedOn := Some now |} in
                    (Returned (succeeded result),
                     withMemberships (<[(team, id) := result]> (memberships db)) db)
              end
          end
      end
  end.


(** A team owned by [0xABCD], whose owner and one other user have
    addresses. *)
Definition clubDb : Db := {|
  teams := {[ 1%Z := "0xABCD" ]};
  addresses := {[ "0xabcd" := 10%Z; "0xbeef" := 20%Z ]};
  memberships := ∅;
|}.

Definition clubOwner : option TokenPayload := Some {| address := "0xAbCd" |}.

Definition clubGuest : option TokenPayload := Some {| address := "0xBEEF" |}.

(** The club after its owner has invited the guest. *)
Definition clubInvited : Db := (addNewMembership clubOwner 1 "0xBeef" clubDb).2.

(** * Properties *)

(** ** The stateful filter *)

Lemma filterWith_cons {A} (f : RepoIds → A → bool * RepoIds) ids x l :
  filterWith f ids (x :: l)
  = ((if (f ids x).1 then [x] else []) ++ (filterWith f (f ids x).2 l).1,
     (filterWith f (f ids x).2 l).2).
Proof.
  cbn. destruct (f ids x) as [keep ids1]. cbn.
  destruct (filterWith f ids1 l) as [kept ids2]. by destruct keep.
Qed.

Lemma filterWith_app {A} (f : RepoIds → A → bool * RepoIds) ids l1 l2 :
  filterWith f ids (l1 ++ l2)
  = ((filterWith f ids l1).1 ++ (filterWith f (filterWith f ids l1).2 l2).1,
     (filterWith f (filterWith f ids l1).2 l2).2).
Proof.
  revert ids. induction l1 as [|x l1 IH]; intros ids.
  - cbn. by destruct (filterWith f ids l2).
  - rewrite <- app_comm_cons, !filterWith_cons, IH. cbn. by rewrite app_assoc.
Qed.

Section FilterWith.
Context {A : Type} (f : RepoIds → A → bool * RepoIds) (idOf : A → Z).
(** [passes x]: the checks of the callback other than the duplicate check;
    [adds x]: the callback puts the identifier of [x] in [foundRepoIds]. *)
Context (passes adds : A → Prop).

Hypothesis f_keep : ∀ ids x,
  (f ids x).1 = true ↔ (idOf x ∉ foundRepoIds ids) ∧ passes x.
Hypothesis f_found : ∀ ids x y,
  y ∈ foundRepoIds (f ids x).2 ↔ y ∈ foundRepoIds ids ∨ (y = idOf x ∧ adds x).
Hypothesis passes_adds : ∀ x, passes x → adds x.

Lemma filterWith_found ids l y :
  y ∈ foundRepoIds (filterWith f ids l).2
  ↔ y ∈ foundRepoIds ids ∨ ∃ x, x ∈ l ∧ adds x ∧ idOf x = y.
Proof using f_found.
  revert ids. induction l as [|x l IH]; intros ids.
  - cbn. split; [by left | intros [?|(x & Hx & _)]; [done | by inv Hx]].
  - rewrite filterWith_cons. cbn. rewrite IH, f_found. split.
    + intros [[?|[-> ?]]|(z & Hz & ? & ?)]; [by left | right..].
      * exists x. split_and!; [left | done..].
      * exists z. split_and!; [by right | done..].
    + intros [?|(z & Hz & ? & ?)]; [by left; left |].
      apply elem_of_cons in Hz as [->|Hz]; [left; right; by subst |].
      right. by exists z.
Qed.

Lemma filterWith_kept ids l x :
  x ∈ (filterWith f ids l).1 →
  x ∈ l ∧ passes x ∧ idOf x ∉ foundRepoIds ids.
Proof using f_keep f_found.
  revert ids. induction l as [|z l IH]; intros ids.
  - cbn. intros Hx. by inv Hx.
  - rewrite filterWith_cons. cbn. intros [Hx|Hx]%elem_of_app.
    + destruct ((f ids z).1) eqn:Ek; [|by inv Hx].
      apply list_elem_of_singleton in Hx as ->.
      apply f_keep in Ek as [? ?]. split_and!; [left | done..].
    + apply IH in Hx as (? & ? & Hn). split_and!; [by right | done |].
      intros Hin. apply Hn, f_found. by left.
Qed.

Lemma filterWith_NoDup ids l : NoDup (idOf <$> (filterWith f ids l).1).
Proof using f_keep f_found passes_adds.
  revert ids. induction l as [|z l IH]; intros ids.
  - cbn. constructor.
  - rewrite filterWith_cons. cbn. destruct ((f ids z).1) eqn:Ek; [|apply IH].
    cbn. constructor; [|apply IH].
    intros (x & Hid & Hx)%list_elem_of_fmap.
    apply filterWith_kept in Hx as (_ & _ & Hn). apply Hn, f_found.
    right. split; [done|]. apply f_keep in Ek as [_ ?]. by apply passes_adds.
Qed.

(** The first record that carries an identifier is kept when it passes
    the checks and nothing before it added the identifier. *)
Lemma filterWith_first_kept ids l1 x l2 :
  idOf x ∉ foundRepoIds ids →
  (∀ y, y ∈ l1 → adds y → idOf y ≠ idOf x) →
  passes x →
  x ∈ (filterWith f ids (l1 ++ x :: l2)).1.
Proof using f_keep f_found.
  intros Hn Hl1 Hp. rewrite filterWith_app, filterWith_cons. cbn.
  apply elem_of_app. right. apply elem_of_app. left.
  assert ((f (filterWith f ids l1).2 x).1 = true) as ->; [|by left].
  apply f_keep. split; [|done].
  intros [?|(y & Hy & ? & ?)]%filterWith_found; [done|]. by eapply Hl1.
Qed.

(** Once a record has added its identifier, no later record with that
    identifier is kept. *)
Lemma filterWith_after_added ids l1 x l2 k :
  adds x →
  k ∈ (filterWith f (f (filterWith f ids l1).2 x).2 l2).1 →
  idOf k ≠ idOf x.
Proof using f_keep f_found.
  intros Ha (_ & _ & Hn)%filterWith_kept Heq. apply Hn, f_found.
  right. by split.
Qed.

(** A record that is the first to carry its identifier, adds it and is
    not kept, leaves no record with that identifier among those kept. *)
Lemma filterWith_first_rejected ids l1 x l2 k :
  (∀ y, y ∈ l1 → idOf y ≠ idOf x) →
  adds x → ¬ passes x →
  k ∈ (filterWith f ids (l1 ++ x :: l2)).1 →
  idOf k ≠ idOf x.
Proof using f_keep f_found.
  intros Hl1 Ha Hp. rewrite filterWith_app, filterWith_cons. cbn.
  intros [Hk|[Hk|Hk]%elem_of_app]%elem_of_app.
  - apply filterWith_kept in Hk as (? & _). by apply Hl1.
  - destruct ((f _ x).1) eqn:Ek; [|by inv Hk].
    apply f_keep in Ek as [_ ?]. done.
  - by eapply filterWith_after_added.
Qed.
End FilterWith.

(** ** The two callbacks *)

Lemma prCallback_keep ids e :
  (prCallback ids e).1 = true ↔ (prId e ∉ foundRepoIds ids) ∧ prFork e = false.
Proof.
  unfold prCallback, prId, prFork. destruct (isFork _); cbn.
  - naive_solver.
  - rewrite negb_true_iff, bool_decide_eq_false. naive_solver.
Qed.

Lemma prCallback_found ids e y :
  y ∈ foundRepoIds (prCallback ids e).2
  ↔ y ∈ foundRepoIds ids ∨ (y = prId e ∧ prFork e = false).
Proof.
  unfold prCallback, prId, prFork. destruct (isFork _); cbn.
  - naive_solver.
  - set_solver.
Qed.

Lemma listingCallback_keep ids r :
  (listingCallback ids r).1 = true
  ↔ (raw_id r ∉ foundRepoIds ids) ∧ eligible r = true.
Proof.
  unfold listingCallback, eligible. case_bool_decide; cbn; [naive_solver|].
  destruct (raw_fork r), (tooFewStars (raw_stargazers_count r)); cbn; naive_solver.
Qed.

Lemma listingCallback_found ids r y :
  y ∈ foundRepoIds (listingCallback ids r).2
  ↔ y ∈ foundRepoIds ids ∨ (y = raw_id r ∧ True).
Proof.
  unfold listingCallback.
  case_bool_decide; [|destruct (raw_fork r), (tooFewStars (raw_stargazers_count r))]; cbn; set_solver.
Qed.

(** ** The aggregation, pass by pass *)

Ltac open_aggregate :=
  unfold aggregate;
  destruct (filterWith prCallback _ _) as [k1 i1] eqn:E1;
  destruct (filterWith listingCallback i1 _) as [k2 i2] eqn:E2;
  destruct (filterWith listingCallback i2 _) as [k3 i3] eqn:E3;
  cbn.

Section Aggregate.
Context (prs : list PrEdge) (repos : list RawRepo) (orgs : list (list RawRepo)).

Let agg := aggregate prs repos orgs.

Lemma aggregate_prs :
  (uniquePrRepos agg, idsAfterPrs agg) = filterWith prCallback noRepoIds prs.
Proof. subst agg. by open_aggregate. Qed.

Lemma aggregate_orgs :
  (keptOrgRepos agg, idsAfterOrgs agg)
  = filterWith listingCallback (idsAfterPrs agg) (concat orgs).
Proof. subst agg. by open_aggregate. Qed.

Lemma aggregate_repos :
  (keptRepos agg, idsAtEnd agg)
  = filterWith listingCallback (idsAfterOrgs agg) repos.
Proof. subst agg. by open_aggregate. Qed.

(** The two listing passes are one pass over the organization listings
    followed by the personal listing. *)
Lemma aggregate_listings :
  (keptOrgRepos agg ++ keptRepos agg, idsAtEnd agg)
  = filterWith listingCallback (idsAfterPrs agg) (concat orgs ++ repos).
Proof.
  rewrite filterWith_app, <- aggregate_orgs. cbn. by rewrite <- aggregate_repos.
Qed.

Lemma aggregate_mapped :
  mappedRepos agg = getMappedRepo <$> keptRepos agg
  ∧ mappedOrgRepos agg = getMappedOrgRepo <$> keptOrgRepos agg
  ∧ mappedPrRepos agg = getMappedPrRepo <$> uniquePrRepos agg.
Proof. subst agg. by open_aggregate. Qed.

(** The identifiers of the output, segment by segment. *)
Lemma allRepos_ids :
  githubRepoId <$> allRepos agg
  = (raw_id <$> keptRepos agg) ++ (raw_id <$> keptOrgRepos agg)
      ++ (prId <$> uniquePrRepos agg).
Proof.
  unfold allRepos. destruct aggregate_mapped as (-> & -> & ->).
  by rewrite !fmap_app, <- !list_fmap_compose.
Qed.

Lemma idsAfterPrs_found y :
  y ∈ foundRepoIds (idsAfterPrs agg)
  ↔ ∃ e, e ∈ prs ∧ prFork e = false ∧ prId e = y.
Proof.
  change (idsAfterPrs agg) with (uniquePrRepos agg, idsAfterPrs agg).2.
  rewrite aggregate_prs.
  rewrite (filterWith_found _ prId (λ e, prFork e = false) prCallback_found).
  cbn. set_solver.
Qed.

Lemma uniquePrRepos_kept e :
  e ∈ uniquePrRepos agg →
  e ∈ prs ∧ prFork e = false ∧ prId e ∈ foundRepoIds (idsAfterPrs agg).
Proof.
  change (uniquePrRepos agg) with (uniquePrRepos agg, idsAfterPrs agg).1.
  rewrite aggregate_prs. intros He.
  apply (filterWith_kept _ prId (λ e, prFork e = false) (λ e, prFork e = false)
           prCallback_keep prCallback_found) in He as (Hin & Hfork & _).
  split_and!; [done..|]. apply idsAfterPrs_found. by exists e.
Qed.

Lemma listings_kept r :
  r ∈ keptOrgRepos agg ++ keptRepos agg →
  r ∈ concat orgs ++ repos ∧ eligible r = true
  ∧ raw_id r ∉ foundRepoIds (idsAfterPrs agg).
Proof.
  change (keptOrgRepos agg ++ keptRepos agg)
    with (keptOrgRepos agg ++ keptRepos agg, idsAtEnd agg).1.
  rewrite aggregate_listings. intros Hr.
  by apply (filterWith_kept _ raw_id (λ r, eligible r = true) (λ _, True)
              listingCallback_keep listingCallback_found) in Hr.
Qed.

Lemma keptOrgRepos_kept r :
  r ∈ keptOrgRepos agg → r ∈ concat orgs.
Proof.
  change (keptOrgRepos agg) with (keptOrgRepos agg, idsAfterOrgs agg).1.
  rewrite aggregate_orgs. intros Hr.
  by apply (filterWith_kept _ raw_id (λ r, eligible r = true) (λ _, True)
              listingCallback_keep listingCallback_found) in Hr as (? & _).
Qed.

Lemma keptRepos_kept r :
  r ∈ keptRepos agg →
  r ∈ repos ∧ raw_id r ∉ foundRepoIds (idsAfterOrgs agg).
Proof.
  change (keptRepos agg) with (keptRepos agg, idsAtEnd agg).1.
  rewrite aggregate_repos. intros Hr.
  by apply (filterWith_kept _ raw_id (λ r, eligible r = true) (λ _, True)
              listingCallback_keep listingCallback_found) in Hr as (? & _ & ?).
Qed.

Lemma idsAfterOrgs_found y :
  y ∈ foundRepoIds (idsAfterOrgs agg)
  ↔ y ∈ foundRepoIds (idsAfterPrs agg) ∨ ∃ r, r ∈ concat orgs ∧ raw_id r = y.
Proof.
  change (idsAfterOrgs agg) with (keptOrgRepos agg, idsAfterOrgs agg).2.
  rewrite aggregate_orgs.
  rewrite (filterWith_found _ raw_id (λ _, True) listingCallback_found).
  naive_solver.
Qed.

Lemma idsAtEnd_found y :
  y ∈ foundRepoIds (idsAtEnd agg)
  ↔ y ∈ foundRepoIds (idsAfterPrs agg)
    ∨ ∃ r, r ∈ concat orgs ++ repos ∧ raw_id r = y.
Proof.
  change (idsAtEnd agg) with (keptOrgRepos agg ++ keptRepos agg, idsAtEnd agg).2.
  rewrite aggregate_listings.
  rewrite (filterWith_found _ raw_id (λ _, True) listingCallback_found).
  naive_solver.
Qed.
End Aggregate.

(** ** Properties of [GET /onboarding/github/repos] *)

(** When the three fetches answer, the body of the response is [allRepos]
    of the aggregation. *)
Lemma githubRepos_body prs repos orgs :
  githubRepos (Some prs) (Some repos) (Some orgs)
  = (200, ReposOk "s-maxage=300, stale-while-revalidate=1800"
            (allRepos (aggregate prs repos orgs))).
Proof. done. Qed.

(** C5: whatever the three sources return, with duplicates inside a source
    or across sources, no two records of the returned list have the same
    [githubRepoId]. *)
Theorem allRepos_ids_unique prs repos orgs :
  NoDup (githubRepoId <$> allRepos (aggregate prs repos orgs)).
Proof.
  rewrite allRepos_ids.
  assert ((raw_id <$> keptRepos (aggregate prs repos orgs))
            ++ (raw_id <$> keptOrgRepos (aggregate prs repos orgs))
            ++ (prId <$> uniquePrRepos (aggregate prs repos orgs))
          ≡ₚ (prId <$> uniquePrRepos (aggregate prs repos orgs))
            ++ (raw_id <$> keptOrgRepos (aggregate prs repos orgs)
                            ++ keptRepos (aggregate prs repos orgs))) as ->.
  { rewrite fmap_app. solve_Permutation. }
  apply NoDup_app. split_and!.
  - change (uniquePrRepos (aggregate prs repos orgs))
      with (uniquePrRepos (aggregate prs repos orgs),
            idsAfterPrs (aggregate prs repos orgs)).1.
    rewrite aggregate_prs.
    eapply (filterWith_NoDup _ prId (λ e, prFork e = false) (λ e, prFork e = false));
      eauto using prCallback_keep, prCallback_found.
  - intros y (e & -> & He)%list_elem_of_fmap (r & Hy & Hr)%list_elem_of_fmap.
    apply uniquePrRepos_kept in He as (_ & _ & Hfound).
    apply listings_kept in Hr as (_ & _ & Hnot). congruence.
  - change (keptOrgRepos (aggregate prs repos orgs) ++ keptRepos (aggregate prs repos orgs))
      with (keptOrgRepos (aggregate prs repos orgs) ++ keptRepos (aggregate prs repos orgs),
            idsAtEnd (aggregate prs repos orgs)).1.
    rewrite aggregate_listings.
    eapply (filterWith_NoDup _ raw_id (λ r, eligible r = true) (λ _, True));
      eauto using listingCallback_keep, listingCallback_found.
Qed.

(** C8: the returned list is the image of the records the three passes
    kept, and every record a pass kept is a record of its source that is not
    marked as a fork. *)
Theorem allRepos_without_forks prs repos orgs :
  allRepos (aggregate prs repos orgs)
  = (getMappedRepo <$> keptRepos (aggregate prs repos orgs))
      ++ (getMappedOrgRepo <$> keptOrgRepos (aggregate prs repos orgs))
      ++ (getMappedPrRepo <$> uniquePrRepos (aggregate prs repos orgs))
  ∧ Forall (λ r, r ∈ repos ∧ raw_fork r = false) (keptRepos (aggregate prs repos orgs))
  ∧ Forall (λ r, r ∈ concat orgs ∧ raw_fork r = false)
      (keptOrgRepos (aggregate prs repos orgs))
  ∧ Forall (λ e, e ∈ prs ∧ isFork (repository (node e)) = false)
      (uniquePrRepos (aggregate prs repos orgs)).
Proof.
  assert (∀ r, eligible r = true → raw_fork r = false) as Hfork.
  { intros r. unfold eligible. by destruct (raw_fork r). }
  split_and!.
  - unfold allRepos. by destruct (aggregate_mapped prs repos orgs) as (-> & -> & ->).
  - apply Forall_forall. intros r Hr. split; [by apply keptRepos_kept in Hr as [? _]|].
    apply Hfork. eapply listings_kept, elem_of_app. by right.
  - apply Forall_forall. intros r Hr. split; [by apply keptOrgRepos_kept in Hr|].
    apply Hfork. eapply listings_kept, elem_of_app. by left.
  - apply Forall_forall. intros e He. by apply uniquePrRepos_kept in He as (? & ? & _).
Qed.

(** C6: a search record that is not a fork, and whose identifier no earlier
    search record has put in the seen set, is kept and its mapped record is
    in the returned list; its star count and its permission level play no
    part. *)
Theorem pr_repo_exempt_from_star_and_permission_checks prs1 e prs2 repos orgs :
  isFork (repository (node e)) = false →
  (∀ y, y ∈ prs1 → isFork (repository (node y)) = false → prId y ≠ prId e) →
  e ∈ uniquePrRepos (aggregate (prs1 ++ e :: prs2) repos orgs)
  ∧ getMappedPrRepo e ∈ allRepos (aggregate (prs1 ++ e :: prs2) repos orgs).
Proof.
  intros Hfork Hfirst.
  assert (e ∈ uniquePrRepos (aggregate (prs1 ++ e :: prs2) repos orgs)) as He.
  { change (uniquePrRepos ?a) with (uniquePrRepos a, idsAfterPrs a).1.
    rewrite aggregate_prs.
    eapply (filterWith_first_kept _ prId (λ e, prFork e = false) (λ e, prFork e = false));
      eauto using prCallback_keep, prCallback_found.
    cbn. set_solver. }
  split; [done|]. unfold allRepos.
  destruct (aggregate_mapped (prs1 ++ e :: prs2) repos orgs) as (_ & _ & ->).
  rewrite !elem_of_app. right; right. by apply list_elem_of_fmap_2.
Qed.

Lemma pr_repo_exempt_witness :
  stargazerCount (repository (node quietPr)) = 0%Z
  ∧ flags (getMappedPrRepo quietPr) = Some (false, false, false, false, true)
  ∧ quietPr ∈ uniquePrRepos (aggregate ([] ++ quietPr :: []) [helloPersonal] [[helloOrg]])
  ∧ getMappedPrRepo quietPr
      ∈ allRepos (aggregate ([] ++ quietPr :: []) [helloPersonal] [[helloOrg]]).
Proof.
  split; [reflexivity|]. split; [reflexivity|].
  apply (pr_repo_exempt_from_star_and_permission_checks
           [] quietPr [] [helloPersonal] [[helloOrg]]).
  - reflexivity.
  - intros y Hy. inversion Hy.
Defined.

(** C9: both listing passes put the identifier of every record they visit
    in [foundRepoIds], whether or not the record is then kept. So when the
    first listing record (organization listings first, then the personal
    listing) that carries an identifier reaches the fork, star and
    permission checks and fails one, no record with that identifier is
    returned, whatever later records carry it. *)
Theorem listing_rejected_at_first_occurrence_never_returned
    prs repos orgs l1 r l2 :
  concat orgs ++ repos = l1 ++ r :: l2 →
  (∀ y, y ∈ l1 → raw_id y ≠ raw_id r) →
  (∀ e, e ∈ prs → isFork (repository (node e)) = false → prId e ≠ raw_id r) →
  eligible r = false →
  (∀ ids x, raw_id x ∈ foundRepoIds (listingCallback ids x).2)
  ∧ (∀ x, x ∈ concat orgs ++ repos →
       raw_id x ∈ foundRepoIds (idsAtEnd (aggregate prs repos orgs)))
  ∧ (∀ out, out ∈ allRepos (aggregate prs repos orgs) →
       githubRepoId out ≠ raw_id r).
Proof.
  intros Hsplit Hfirst Hprs Hrej. split_and!.
  - intros ids x. apply listingCallback_found. by right.
  - intros x Hx. apply idsAtEnd_found. right. by exists x.
  - assert (∀ k, k ∈ keptOrgRepos (aggregate prs repos orgs)
                       ++ keptRepos (aggregate prs repos orgs) →
                 raw_id k ≠ raw_id r) as Hlistings.
    { intros k.
      change (keptOrgRepos ?a ++ keptRepos ?a)
        with (keptOrgRepos a ++ keptRepos a, idsAtEnd a).1.
      rewrite aggregate_listings, Hsplit.
      apply (filterWith_first_rejected _ raw_id (λ r, eligible r = true) (λ _, True)
               listingCallback_keep listingCallback_found); [done..|congruence]. }
    intros out Hout Hid.
    assert (raw_id r ∈ githubRepoId <$> allRepos (aggregate prs repos orgs)) as Hin.
    { rewrite <- Hid. by apply list_elem_of_fmap_2. }
    rewrite allRepos_ids, !elem_of_app in Hin.
    destruct Hin as [(k & Hk & Hkept)%list_elem_of_fmap
                    |[(k & Hk & Hkept)%list_elem_of_fmap
                     |(e & Hk & Hkept)%list_elem_of_fmap]].
    + apply (Hlistings k); [apply elem_of_app; by right | done].
    + apply (Hlistings k); [apply elem_of_app; by left | done].
    + apply uniquePrRepos_kept in Hkept as (? & ? & _). by eapply Hprs.
Qed.

Lemma listing_rejected_witness :
  eligible spoonAgain = true
  ∧ raw_id spoonAgain ∈ foundRepoIds (idsAtEnd (aggregate [] [spoonAgain] [[spoonFork]]))
  ∧ ∀ out, out ∈ allRepos (aggregate [] [spoonAgain] [[spoonFork]]) →
           githubRepoId out ≠ raw_id spoonFork.
Proof.
  split; [reflexivity|].
  destruct (listing_rejected_at_first_occurrence_never_returned
              [] [spoonAgain] [[spoonFork]] [] spoonFork [spoonAgain])
    as (_ & Hfound & Hout).
  - reflexivity.
  - intros y Hy. inversion Hy.
  - intros e He. inversion He.
  - reflexivity.
  - split; [|exact Hout]. apply Hfound. right. left.
Defined.

(** C2 (as the code has it): identifiers are claimed in the order
    pull-request search, organization listings, personal listing. A search
    record that is not a fork shuts every listing record with its
    identifier out; an organization record shuts every personal record with
    its identifier out; and the first organization record that carries an
    identifier the search did not claim is kept when it passes the
    checks. *)
Theorem dedup_priority_pr_org_personal prs repos orgs :
  (∀ e out, e ∈ prs → isFork (repository (node e)) = false →
     out ∈ mappedOrgRepos (aggregate prs repos orgs)
             ++ mappedRepos (aggregate prs repos orgs) →
     githubRepoId out ≠ prId e)
  ∧ (∀ o out, o ∈ concat orgs →
       out ∈ mappedRepos (aggregate prs repos orgs) →
       githubRepoId out ≠ raw_id o)
  ∧ (∀ l1 o l2, concat orgs = l1 ++ o :: l2 →
       (∀ y, y ∈ l1 → raw_id y ≠ raw_id o) →
       (∀ e, e ∈ prs → isFork (repository (node e)) = false → prId e ≠ raw_id o) →
       eligible o = true →
       getMappedOrgRepo o ∈ mappedOrgRepos (aggregate prs repos orgs)).
Proof.
  destruct (aggregate_mapped prs repos orgs) as (-> & -> & _). split_and!.
  - intros e out He Hfork.
    intros [Hout|Hout]%elem_of_app;
      apply list_elem_of_fmap in Hout as (k & -> & Hk); cbn; intros Hid.
    + assert (k ∈ keptOrgRepos (aggregate prs repos orgs)
                  ++ keptRepos (aggregate prs repos orgs)) as Hk'
        by (apply elem_of_app; by left).
      apply listings_kept in Hk' as (_ & _ & Hn). apply Hn, idsAfterPrs_found.
      by exists e.
    + assert (k ∈ keptOrgRepos (aggregate prs repos orgs)
                  ++ keptRepos (aggregate prs repos orgs)) as Hk'
        by (apply elem_of_app; by right).
      apply listings_kept in Hk' as (_ & _ & Hn). apply Hn, idsAfterPrs_found.
      by exists e.
  - intros o out Ho (k & -> & Hk)%list_elem_of_fmap. cbn. intros Hid.
    apply keptRepos_kept in Hk as (_ & Hn). apply Hn, idsAfterOrgs_found.
    right. by exists o.
  - intros l1 o l2 Hsplit Hfirst Hprs Hok. apply list_elem_of_fmap_2.
    change (keptOrgRepos ?a) with (keptOrgRepos a, idsAfterOrgs a).1.
    rewrite aggregate_orgs, Hsplit.
    apply (filterWith_first_kept _ raw_id (λ r, eligible r = true) (λ _, True)
             listingCallback_keep listingCallback_found); [|by auto|done].
    intros (e & ? & ? & ?)%idsAfterPrs_found. by eapply Hprs.
Qed.

Lemma dedup_priority_witness :
  getMappedOrgRepo helloOrg
    ∈ mappedOrgRepos (aggregate [] [helloPersonal] [[helloOrg]])
  ∧ ∀ out, out ∈ mappedRepos (aggregate [] [helloPersonal] [[helloOrg]]) →
           githubRepoId out ≠ raw_id helloOrg.
Proof.
  destruct (dedup_priority_pr_org_personal [] [helloPersonal] [[helloOrg]])
    as (_ & Hpersonal & Horg).
  split.
  - apply (Horg [] helloOrg []).
    + reflexivity.
    + intros y Hy. inversion Hy.
    + intros e He. inversion He.
    + reflexivity.
  - intros out. apply Hpersonal. left.
Defined.

(** C2 (as stated, refuted): repository 7 is in the personal listing and in
    an organization listing, in no search result, and both records pass
    every check; the organization record is the one returned and the
    personal record is dropped. *)
Lemma personal_before_org_counterexample :
  raw_id helloPersonal = raw_id helloOrg
  ∧ eligible helloPersonal = true
  ∧ eligible helloOrg = true
  ∧ mappedRepos (aggregate [] [helloPersonal] [[helloOrg]]) = []
  ∧ mappedOrgRepos (aggregate [] [helloPersonal] [[helloOrg]])
    = [getMappedOrgRepo helloOrg]
  ∧ allRepos (aggregate [] [helloPersonal] [[helloOrg]]) = [getMappedOrgRepo helloOrg]
  ∧ getMappedRepo helloPersonal ∉ allRepos (aggregate [] [helloPersonal] [[helloOrg]]).
Proof.
  split_and!; [reflexivity..|].
  assert (allRepos (aggregate [] [helloPersonal] [[helloOrg]])
          = [getMappedOrgRepo helloOrg]) as -> by reflexivity.
  intros Hin%list_elem_of_singleton. discriminate Hin.
Qed.

(** ** Properties of the repo-name list *)

Lemma append_assoc (s1 s2 s3 : string) : (s1 +:+ s2) +:+ s3 = s1 +:+ s2 +:+ s3.
Proof. induction s1 as [|c s1 IH]; [done|]. cbv [String.append]. by f_equal. Qed.

Lemma append_String c s t : String c s +:+ t = String c (s +:+ t).
Proof. done. Qed.

Lemma append_empty s : EmptyString +:+ s = s.
Proof. done. Qed.

Lemma split_slashFree s : slashFree s → Js.split "/" s = [s].
Proof.
  induction s as [|c s IH]; cbn; [done|]. intros [Hc Hs].
  rewrite decide_False by done. by rewrite IH.
Qed.

Lemma split_owner_name owner name :
  slashFree owner → slashFree name →
  Js.split "/" (owner +:+ "/" +:+ name) = [owner; name].
Proof.
  intros Ho Hn. change ("/" +:+ name) with (String "/" name).
  induction owner as [|c owner IH]; rewrite ?append_empty, ?append_String; cbn.
  - rewrite decide_True by done. by rewrite split_slashFree.
  - destruct Ho as [Hc Ho]. rewrite decide_False by done. by rewrite IH.
Qed.

Lemma repoName_owner_name `{HasFullName A} (repo : A) owner name :
  get_full_name repo = owner +:+ "/" +:+ name →
  slashFree owner → slashFree name →
  repoName repo = name.
Proof.
  intros Hfull Ho Hn. unfold repoName. by rewrite Hfull, split_owner_name.
Qed.

Ltac normalize_append :=
  cbn -[pretty]; rewrite ?append_assoc, ?append_String, ?append_empty.

(** C3 (as the code has it): on a non-empty list the formatter returns one
    name alone; for two to six names all of them, comma-joined, with "and "
    before the last; for seven names or more the first five, comma-joined,
    then ", and K more" with K the number of names less five. A name is the
    segment of [full_name] after the first slash, which is the repository
    name when [full_name] is an owner, a slash and a name. *)
Theorem formatRepos_lists_names `{HasFullName A} (first : A) (rest : list A) :
  formatRepos (first :: rest)
  = Some (listedNames 6 (repoName <$> first :: rest))
  ∧ ∀ (repo : A) owner name,
      get_full_name repo = owner +:+ "/" +:+ name →
      slashFree owner → slashFree name → repoName repo = name.
Proof.
  split; [|apply repoName_owner_name].
  unfold formatRepos. f_equal.
  destruct rest as [|r1 [|r2 [|r3 [|r4 [|r5 [|r6 rest]]]]]]; try by normalize_append.
  unfold listedNames. rewrite bool_decide_eq_false_2 by (cbn; lia).
  normalize_append. by rewrite length_fmap.
Qed.

Lemma formatRepos_lists_names_witness :
  formatRepos sixChosen = Some (listedNames 6 (repoName <$> sixChosen))
  ∧ repoName (chosen "octocat/hello") = "hello".
Proof.
  split.
  - exact (proj1 (formatRepos_lists_names (chosen "octocat/a") fiveChosen)).
  - apply (proj2 (formatRepos_lists_names (chosen "octocat/hello") [])
             (chosen "octocat/hello") "octocat" "hello").
    + reflexivity.
    + cbn. repeat split; discriminate.
    + cbn. repeat split; discriminate.
Defined.

(** C3 (as stated, refuted): with six names the formatter lists all six,
    where the specification cuts the list after five and ends it with
    ", and 1 more". *)
Lemma formatRepos_six_counterexample :
  formatRepos sixChosen = Some "a, b, c, d, e, and f"
  ∧ listedNames 5 (repoName <$> sixChosen) = "a, b, c, d, e, and 1 more"
  ∧ formatRepos sixChosen ≠ Some (listedNames 5 (repoName <$> sixChosen)).
Proof. split_and!; [reflexivity..|]. intros Heq. vm_compute in Heq. discriminate Heq. Qed.

(** The examples of the specification. *)
Lemma formatRepos_examples :
  formatRepos [chosen "octocat/alpha"] = Some "alpha"
  ∧ formatRepos (chosen <$> ["octocat/alpha"; "octocat/beta"]) = Some "alpha, and beta"
  ∧ formatRepos (chosen <$> ["o/a"; "o/b"; "o/c"; "o/d"; "o/e"; "o/f"; "o/g"])
    = Some "a, b, c, d, e, and 2 more".
Proof. split_and!; reflexivity. Qed.

(** C10: the formatter throws on the empty list and on no other; so
    building the confirmation e-mail throws exactly when the submission
    selects no repository, and then the mail service is not called. *)
Theorem formatRepos_needs_a_repo :
  (∀ `{HasFullName A} (selection : list A),
     formatRepos selection = None ↔ selection = [])
  ∧ (∀ formData queueNumber,
       confirmationModel formData queueNumber = None ↔ repos formData = [])
  ∧ (∀ env formData queueNumber s,
       repos formData = [] →
       sendConfirmationEmail env formData queueNumber s = (Thrown, s)).
Proof.
  assert (∀ `{HasFullName A} (selection : list A),
            formatRepos selection = None ↔ selection = []) as Hfmt.
  { intros A ? [|first rest]; cbn; split; intros; done. }
  split_and!; [done| |].
  - intros formData queueNumber. unfold confirmationModel.
    destruct (repos formData) as [|first rest]; cbn; split; intros; done.
  - intros env formData queueNumber s Hnone. unfold sendConfirmationEmail.
    assert (confirmationModel formData queueNumber = None) as ->; [|done].
    unfold confirmationModel. by rewrite Hnone.
Qed.

Lemma formatRepos_needs_a_repo_witness :
  formatRepos (A:=SelectedRepo) [] = None
  ∧ sendConfirmationEmail calm (formOf []) None
      {| table := ∅; urls := []; tableCount := None; trace := [] |}
    = (Thrown, {| table := ∅; urls := []; tableCount := None; trace := [] |}).
Proof.
  destruct formatRepos_needs_a_repo as (Hfmt & _ & Hsend). split.
  - apply Hfmt. reflexivity.
  - apply Hsend. reflexivity.
Defined.

(** ** The route monad *)

Lemma bind_Next {A B} (m : Route A) (k : A → Route B) s a s' :
  m s = (Next a, s') → (m ≫= k) s = k a s'.
Proof. intros Hm. unfold mbind, Route_bind. by rewrite Hm. Qed.

Lemma bind_Responded {A B} (m : Route A) (k : A → Route B) s r s' :
  m s = (Responded r, s') → (m ≫= k) s = (Responded r, s').
Proof. intros Hm. unfold mbind, Route_bind. by rewrite Hm. Qed.

Lemma tryCatch_Next block handler s s' :
  block s = (Next (), s') → tryCatch block handler s = (Next (), s').
Proof. intros Hb. unfold tryCatch. by rewrite Hb. Qed.

(** ** The blocks of the handler *)

Ltac run_route :=
  unfold failWith, rejectIssues, call, respond, throw, pushUrl, logged,
    getUrls, modifyTable, getTable, getTableCount, setTableCount, tryCatch,
    mbind, mret, Route_bind, Route_ret;
  cbn [table urls tableCount trace fst snd].

Ltac tidy_state :=
  cbn [table urls tableCount trace fst snd]; rewrite <- ?app_assoc;
  cbn [app fmap list_fmap seq]; try done.

Lemma validate_passes env s :
  formIssues env = None → reposIssues env = None → imageIssues env = None →
  validate env s = (Next (), s).
Proof. intros Hf Hr Hi. unfold validate. by rewrite Hf, Hr, Hi. Qed.

Lemma persist_succeeds env req t s :
  putItemFails env = false →
  persist env req t s
  = (Next (),
     {| table := <[(createIntakeFormDocForDynamo (body req) t).1 :=
                     (createIntakeFormDocForDynamo (body req) t).2]> (table s);
        urls := urls s; tableCount := tableCount s;
        trace := trace s ++ [CPutItem (createIntakeFormDocForDynamo (body req) t).1
                                      (createIntakeFormDocForDynamo (body req) t).2] |}).
Proof.
  intros Hput. apply tryCatch_Next. unfold createIntakeFormDocForDynamo, putItem.
  cbv beta iota. by rewrite Hput.
Qed.

Lemma uploadImage_succeeds env req t i image s :
  uploadFails env i = false →
  uploadImage env req t i image s
  = (Next (),
     {| table := table s; urls := urls s ++ [imageUrl env req t i];
        tableCount := tableCount s;
        trace := trace s ++ [uploadCall env req t i] |}).
Proof.
  intros Hok. unfold uploadImage, uploadMulterFile. run_route. rewrite Hok.
  tidy_state.
Qed.

Lemma uploadImage_fails env req t i image s :
  uploadFails env i = true →
  uploadImage env req t i image s
  = (Responded {| status := 400;
                  sent := BMsg "Failed to submit intake form assets to S3" |},
     {| table := table s; urls := urls s; tableCount := tableCount s;
        trace := trace s ++ [uploadCall env req t i; CLogError UploadFailed;
                             CEndTimer 400] |}).
Proof.
  intros Hfail. unfold uploadImage, uploadMulterFile. run_route. rewrite Hfail.
  tidy_state.
Qed.

Lemma uploadImages_succeeds env req t images : ∀ i s,
  (∀ j, j < length images → uploadFails env (i + j) = false) →
  uploadImages env req t i images s
  = (Next (),
     {| table := table s;
        urls := urls s ++ (imageUrl env req t <$> seq i (length images));
        tableCount := tableCount s;
        trace := trace s ++ (uploadCall env req t <$> seq i (length images)) |}).
Proof.
  induction images as [|image rest IH]; intros i [tb us tc tr] Hok.
  - cbn. by rewrite !app_nil_r.
  - cbn [uploadImages]. erewrite bind_Next; last first.
    { apply uploadImage_succeeds. rewrite <- (Nat.add_0_r i). apply Hok. cbn. lia. }
    rewrite IH.
    + cbn. by rewrite <- !app_assoc.
    + intros j Hj. replace (S i + j) with (i + S j) by lia. apply Hok. cbn. lia.
Qed.

Lemma uploadImages_fails env req t images : ∀ i s k,
  k < length images →
  (∀ j, j < k → uploadFails env (i + j) = false) →
  uploadFails env (i + k) = true →
  uploadImages env req t i images s
  = (Responded {| status := 400;
                  sent := BMsg "Failed to submit intake form assets to S3" |},
     {| table := table s;
        urls := urls s ++ (imageUrl env req t <$> seq i k);
        tableCount := tableCount s;
        trace := trace s ++ (uploadCall env req t <$> seq i (S k))
                   ++ [CLogError UploadFailed; CEndTimer 400] |}).
Proof.
  induction images as [|image rest IH]; intros i [tb us tc tr] k Hk Hok Hfail;
    [cbn in Hk; lia|].
  cbn [uploadImages]. destruct k as [|k].
  - rewrite Nat.add_0_r in Hfail. erewrite bind_Responded; last first.
    { by apply uploadImage_fails. }
    cbn. by rewrite app_nil_r.
  - erewrite bind_Next; last first.
    { apply uploadImage_succeeds. rewrite <- (Nat.add_0_r i). apply Hok. lia. }
    rewrite (IH (S i) _ k).
    + cbn. by rewrite <- !app_assoc.
    + cbn in Hk. lia.
    + intros j Hj. replace (S i + j) with (i + S j) by lia. apply Hok. lia.
    + by replace (S i + k) with (i + S k) by lia.
Qed.

Lemma pushImages_succeeds env req t s :
  (∀ j, j < length (files req) → uploadFails env j = false) →
  (0 < length (files req) → updateItemFails env = false) →
  pushImages env req t s
  = (Next (),
     if bool_decide (0 < length (files req)) then
       {| table :=
            alter (setImages (urls s ++ (imageUrl env req t <$> seq 0 (length (files req)))))
              (email (body req) +:+ "-" +:+ githubHandle (body req), t) (table s);
          urls := urls s ++ (imageUrl env req t <$> seq 0 (length (files req)));
          tableCount := tableCount s;
          trace :=
            trace s ++ (uploadCall env req t <$> seq 0 (length (files req)))
              ++ [CUpdateItem (email (body req) +:+ "-" +:+ githubHandle (body req), t)
                    (urls s ++ (imageUrl env req t <$> seq 0 (length (files req))))] |}
     else s).
Proof.
  intros Hup Hupd. unfold pushImages. case_bool_decide as Hfiles; [|done].
  erewrite bind_Next; [|by apply uploadImages_succeeds].
  unfold createUpdateItemParamsForImages, updateItem. run_route.
  rewrite Hupd by done. tidy_state.
Qed.

Lemma notify_scan_fails env req s :
  scanFails env = true →
  notify env req s = (Next (), logged [CScan; CLogError EmailFailed] s).
Proof.
  intros Hscan. unfold notify, scanIncomplete. run_route. rewrite Hscan.
  unfold logged. tidy_state.
Qed.

Lemma finish_responds req s :
  finish req s
  = (Responded {| status := 200;
                  sent := BSubmitted (body req) (tableCount s)
                            "Successfully submitted intake form" |},
     logged [CEndTimer 200] s).
Proof. done. Qed.

Lemma uploadIndices_app tr1 tr2 :
  uploadIndices (tr1 ++ tr2) = uploadIndices tr1 ++ uploadIndices tr2.
Proof. apply omap_app. Qed.

Lemma uploadIndices_uploadCalls env req t l :
  uploadIndices (uploadCall env req t <$> l) = l.
Proof. induction l as [|i l IH]; cbn; [done|]. by f_equal. Qed.

Lemma uploadCalls_no_table_write env req t l :
  List.filter isTableWrite (uploadCall env req t <$> l) = [].
Proof. by induction l. Qed.

Lemma uploadCalls_no_mail env req t l :
  List.filter isMail (uploadCall env req t <$> l) = [].
Proof. by induction l. Qed.

(** The request that fails at the upload of index [k], in full. *)
Lemma postIntakeForm_upload_fails env req t table0 k :
  formIssues env = None → reposIssues env = None → imageIssues env = None →
  putItemFails env = false →
  k < length (files req) →
  (∀ j, j < k → uploadFails env j = false) →
  uploadFails env k = true →
  postIntakeForm env req t table0
  = (Some {| status := 400;
             sent := BMsg "Failed to submit intake form assets to S3" |},
     {| table := <[(createIntakeFormDocForDynamo (body req) t).1 :=
                     (createIntakeFormDocForDynamo (body req) t).2]> table0;
        urls := imageUrl env req t <$> seq 0 k;
        tableCount := None;
        trace := CPutItem (createIntakeFormDocForDynamo (body req) t).1
                          (createIntakeFormDocForDynamo (body req) t).2
                   :: (uploadCall env req t <$> seq 0 (S k))
                   ++ [CLogError UploadFailed; CEndTimer 400] |}).
Proof.
  intros Hf Hr Hi Hput Hk Hok Hfail. unfold postIntakeForm, intakeForm.
  erewrite bind_Next; [|by apply validate_passes].
  erewrite bind_Next; [|by apply persist_succeeds].
  erewrite bind_Responded; last first.
  { unfold pushImages. rewrite bool_decide_eq_true_2 by lia.
    erewrite bind_Responded; [done|]. by apply (uploadImages_fails _ _ _ _ _ _ k). }
  tidy_state.
Qed.

(** C7: when the record is written and the upload of the image at index
    [k] is the first to fail, the uploads attempted are those of the
    indices 0 to [k] and no other, the response is the 400 of the upload
    failure, and the record written before the uploads is still in the
    table, without an [images] attribute: the one write to the table is the
    initial one. *)
Theorem upload_failure_aborts_and_keeps_record env req t table0 k :
  formIssues env = None → reposIssues env = None → imageIssues env = None →
  putItemFails env = false →
  k < length (files req) →
  (∀ j, j < k → uploadFails env j = false) →
  uploadFails env k = true →
  (postIntakeForm env req t table0).1
  = Some {| status := 400;
            sent := BMsg "Failed to submit intake form assets to S3" |}
  ∧ uploadIndices (trace (postIntakeForm env req t table0).2) = seq 0 (S k)
  ∧ (∀ j, j ∈ uploadIndices (trace (postIntakeForm env req t table0).2) → j ≤ k)
  ∧ table (postIntakeForm env req t table0).2
      !! (createIntakeFormDocForDynamo (body req) t).1
    = Some (createIntakeFormDocForDynamo (body req) t).2
  ∧ item_images (createIntakeFormDocForDynamo (body req) t).2 = None
  ∧ List.filter isTableWrite (trace (postIntakeForm env req t table0).2)
    = [CPutItem (createIntakeFormDocForDynamo (body req) t).1
                (createIntakeFormDocForDynamo (body req) t).2].
Proof.
  intros Hf Hr Hi Hput Hk Hok Hfail.
  rewrite (postIntakeForm_upload_fails env req t table0 k) by done.
  cbn [fst snd trace table].
  assert (uploadIndices
            (CPutItem (createIntakeFormDocForDynamo (body req) t).1
                      (createIntakeFormDocForDynamo (body req) t).2
               :: (uploadCall env req t <$> seq 0 (S k))
               ++ [CLogError UploadFailed; CEndTimer 400]) = seq 0 (S k)) as Hidx.
  { change (uploadIndices (?c :: ?tr)) with (uploadIndices tr).
    by rewrite uploadIndices_app, uploadIndices_uploadCalls, app_nil_r. }
  split_and!.
  - done.
  - done.
  - rewrite Hidx. intros j Hj%elem_of_seq. lia.
  - apply lookup_insert_eq.
  - done.
  - change (List.filter isTableWrite (?c :: ?tr)) with (c :: List.filter isTableWrite tr).
    by rewrite List.filter_app, uploadCalls_no_table_write.
Qed.

Lemma upload_failure_witness :
  (postIntakeForm thirdUploadDown fourImages 1700000000 ∅).1
  = Some {| status := 400;
            sent := BMsg "Failed to submit intake form assets to S3" |}
  ∧ uploadIndices (trace (postIntakeForm thirdUploadDown fourImages 1700000000 ∅).2)
    = [0; 1; 2].
Proof.
  destruct (upload_failure_aborts_and_keeps_record
              thirdUploadDown fourImages 1700000000 ∅ 2)
    as (Hresp & Hidx & _).
  - reflexivity.
  - reflexivity.
  - reflexivity.
  - reflexivity.
  - cbn. lia.
  - intros [|[|j]] Hj; [reflexivity | reflexivity | lia].
  - reflexivity.
  - split; [exact Hresp | exact Hidx].
Defined.

(** The request whose record is written, with its images if any, and whose
    COUNT scan then throws, in full. *)
Lemma postIntakeForm_scan_fails env req t table0 :
  formIssues env = None → reposIssues env = None → imageIssues env = None →
  putItemFails env = false →
  (∀ j, j < length (files req) → uploadFails env j = false) →
  (0 < length (files req) → updateItemFails env = false) →
  scanFails env = true →
  (postIntakeForm env req t table0).1
  = Some {| status := 200;
            sent := BSubmitted (body req) None "Successfully submitted intake form" |}
  ∧ trace (postIntakeForm env req t table0).2
    = recordedCalls env req t ++ [CScan; CLogError EmailFailed; CEndTimer 200].
Proof.
  intros Hf Hr Hi Hput Hup Hupd Hscan. unfold postIntakeForm, intakeForm.
  erewrite bind_Next; [|by apply validate_passes].
  erewrite bind_Next; [|by apply persist_succeeds].
  erewrite bind_Next; [|by apply pushImages_succeeds].
  erewrite bind_Next; [|by apply notify_scan_fails].
  rewrite finish_responds. unfold recordedCalls, createIntakeFormDocForDynamo, logged.
  case_bool_decide; tidy_state. split; [done|]. by rewrite <- app_assoc.
Qed.

(** C4 (as the code has it): when the record is written, with its images if
    any, and the COUNT scan throws, the error is logged, neither e-mail is
    sent, and the response is the 200 of a successful submission with an
    undefined queue number. *)
Theorem scan_failure_skips_emails_and_still_succeeds env req t table0 :
  formIssues env = None → reposIssues env = None → imageIssues env = None →
  putItemFails env = false →
  (∀ j, j < length (files req) → uploadFails env j = false) →
  (0 < length (files req) → updateItemFails env = false) →
  scanFails env = true →
  (postIntakeForm env req t table0).1
  = Some {| status := 200;
            sent := BSubmitted (body req) None "Successfully submitted intake form" |}
  ∧ trace (postIntakeForm env req t table0).2
    = recordedCalls env req t ++ [CScan; CLogError EmailFailed; CEndTimer 200]
  ∧ List.filter isMail (trace (postIntakeForm env req t table0).2) = [].
Proof.
  intros Hf Hr Hi Hput Hup Hupd Hscan.
  destruct (postIntakeForm_scan_fails env req t table0) as [Hresp Htrace]; [done..|].
  split_and!; [done..|]. rewrite Htrace, List.filter_app.
  unfold recordedCalls, createIntakeFormDocForDynamo. cbn [List.filter isMail app].
  case_bool_decide; [|done].
  by rewrite List.filter_app, uploadCalls_no_mail.
Qed.

Lemma scan_failure_witness :
  (postIntakeForm scanDown fourImages 1700000000 ∅).1
  = Some {| status := 200;
            sent := BSubmitted (body fourImages) None
                      "Successfully submitted intake form" |}
  ∧ List.filter isMail (trace (postIntakeForm scanDown fourImages 1700000000 ∅).2) = [].
Proof.
  destruct (scan_failure_skips_emails_and_still_succeeds
              scanDown fourImages 1700000000 ∅)
    as (Hresp & _ & Hmail).
  - reflexivity.
  - reflexivity.
  - reflexivity.
  - reflexivity.
  - intros j Hj. reflexivity.
  - intros Hfiles. reflexivity.
  - reflexivity.
  - split; [exact Hresp | exact Hmail].
Defined.

(** C4 (as stated, refuted): the record of [plainRequest] is written and
    the COUNT scan throws. The route answers 200 with an undefined queue
    number, but after the scan it makes no call to the mail service, where
    the same request sends both e-mails when the scan answers. *)
Lemma scan_failure_counterexample :
  (postIntakeForm scanDown plainRequest 1700000000 ∅).1
  = Some {| status := 200;
            sent := BSubmitted (body plainRequest) None
                      "Successfully submitted intake form" |}
  ∧ trace (postIntakeForm scanDown plainRequest 1700000000 ∅).2
    = [CPutItem (createIntakeFormDocForDynamo (body plainRequest) 1700000000).1
                (createIntakeFormDocForDynamo (body plainRequest) 1700000000).2;
       CScan; CLogError EmailFailed; CEndTimer 200]
  ∧ List.filter isMail (trace (postIntakeForm scanDown plainRequest 1700000000 ∅).2)
    = []
  ∧ length (List.filter isMail
              (trace (postIntakeForm calm plainRequest 1700000000 ∅).2)) = 2.
Proof. split_and!; vm_compute; reflexivity. Qed.
(** ** Properties of the adapters *)

Lemma flags_admin pr :
  flags (getMappedPrRepo (withViewerPermission "ADMIN" pr))
  = Some (true, true, true, true, true).
Proof. reflexivity. Qed.

Lemma flags_maintain pr :
  flags (getMappedPrRepo (withViewerPermission "MAINTAIN" pr))
  = Some (false, true, true, true, true).
Proof. reflexivity. Qed.

Lemma flags_write pr :
  flags (getMappedPrRepo (withViewerPermission "WRITE" pr))
  = Some (false, false, true, true, true).
Proof. reflexivity. Qed.

Lemma flags_read pr :
  flags (getMappedPrRepo (withViewerPermission "READ" pr))
  = Some (false, false, false, false, true).
Proof. reflexivity. Qed.

Lemma flags_other level pr :
  level ∉ ["ADMIN"; "MAINTAIN"; "WRITE"; "TRIAGE"; "READ"] →
  flags (getMappedPrRepo (withViewerPermission level pr))
  = Some (false, false, false, false, false).
Proof.
  intros Hl. cbn. unfold Js.includes.
  rewrite !bool_decide_eq_false_2; [done | set_solver..].
Qed.

(** C1 (defect): a repository found through the pull-request search with
    permission level TRIAGE gets [triage] but not [pull]: the list behind
    [pull] names READ, WRITE, MAINTAIN and ADMIN and leaves TRIAGE out, so
    the tiers are not cumulative at this level. *)
Theorem getMappedPrRepo_triage_without_pull pr :
  flags (getMappedPrRepo (withViewerPermission "TRIAGE" pr))
  = Some (false, false, false, true, false).
Proof. reflexivity. Qed.

(** * Further properties *)

(** ** More on [GET /onboarding/github/repos] *)

Lemma filterWith_sublist {A} (f : RepoIds → A → bool * RepoIds) ids l :
  (filterWith f ids l).1 `sublist_of` l.
Proof.
  revert ids. induction l as [|x l IH]; intros ids; [done|].
  rewrite filterWith_cons. cbn. destruct ((f ids x).1); cbn.
  - by apply sublist_skip.
  - by apply sublist_cons.
Qed.

Lemma hasPermission_true p :
  hasPermission p = true
  ↔ ∃ q, p = Some q ∧ (admin q = Some true ∨ maintain q = Some true ∨ push q = Some true).
Proof.
  unfold hasPermission. destruct p as [[[[]|] [[]|] [[]|] t r]|]; cbn; naive_solver.
Qed.

Lemma tooFewStars_false count :
  tooFewStars count = false ↔ ∃ n, count = Some n ∧ (2 ≤ n)%Z.
Proof.
  destruct count as [n|]; cbn; [|naive_solver].
  rewrite orb_false_iff, Z.eqb_neq, Z.ltb_ge. split.
  - intros [_ ?]. by exists n.
  - intros (m & [= <-] & ?). lia.
Qed.

Lemma eligible_true r :
  eligible r = true
  ↔ raw_fork r = false ∧ tooFewStars (raw_stargazers_count r) = false
    ∧ hasPermission (raw_permissions r) = true.
Proof.
  unfold eligible. rewrite !andb_true_iff, !negb_true_iff. naive_solver.
Qed.

(** X1: every record returned from the personal listing or from an
    organization listing comes from a listing record with a star count of at
    least 2 (a missing count does not pass), and carries a permission object
    in which [admin], [maintain] or [push] is true. *)
Theorem listing_records_have_stars_and_permission prs repos orgs out :
  out ∈ mappedRepos (aggregate prs repos orgs)
          ++ mappedOrgRepos (aggregate prs repos orgs) →
  (∃ r n, r ∈ concat orgs ++ repos ∧ out = getMappedRepo r
          ∧ raw_stargazers_count r = Some n ∧ (2 ≤ n)%Z)
  ∧ ∃ q, permissions out = Some q
         ∧ (admin q = Some true ∨ maintain q = Some true ∨ push q = Some true).
Proof.
  destruct (aggregate_mapped prs repos orgs) as (-> & -> & _).
  intros Hout.
  assert (∃ r, r ∈ keptOrgRepos (aggregate prs repos orgs)
                   ++ keptRepos (aggregate prs repos orgs)
               ∧ out = getMappedRepo r) as (r & Hr & ->).
  { apply elem_of_app in Hout as [Hout|Hout];
      apply list_elem_of_fmap in Hout as (r & -> & Hr);
      exists r; (split; [apply elem_of_app; auto | done]). }
  apply listings_kept in Hr as (Hin & Hok & _).
  apply eligible_true in Hok as (_ & (n & Hn & ?)%tooFewStars_false & Hperm).
  split; [by exists r, n|]. by apply hasPermission_true.
Qed.

Lemma listing_records_witness :
  ∃ q, permissions (getMappedOrgRepo helloOrg) = Some q
       ∧ (admin q = Some true ∨ maintain q = Some true ∨ push q = Some true).
Proof.
  apply (listing_records_have_stars_and_permission [] [helloPersonal] [[helloOrg]]).
  vm_compute. left.
Defined.

(** X2: the pull-request segment holds exactly one record for each
    identifier that some search record that is not a fork carries. *)
Theorem pr_segment_one_record_per_non_fork_id prs repos orgs :
  NoDup (githubRepoId <$> mappedPrRepos (aggregate prs repos orgs))
  ∧ ∀ y, y ∈ githubRepoId <$> mappedPrRepos (aggregate prs repos orgs)
         ↔ ∃ e, e ∈ prs ∧ isFork (repository (node e)) = false ∧ prId e = y.
Proof.
  destruct (aggregate_mapped prs repos orgs) as (_ & _ & ->).
  rewrite <- list_fmap_compose.
  change (githubRepoId ∘ getMappedPrRepo) with prId.
  change (uniquePrRepos (aggregate prs repos orgs))
    with (uniquePrRepos (aggregate prs repos orgs),
          idsAfterPrs (aggregate prs repos orgs)).1.
  rewrite aggregate_prs. split.
  - eapply (filterWith_NoDup _ prId (λ e, prFork e = false) (λ e, prFork e = false));
      eauto using prCallback_keep, prCallback_found.
  - intros y. split.
    + intros (e & -> & He)%list_elem_of_fmap.
      apply (filterWith_kept _ prId (λ e, prFork e = false) (λ e, prFork e = false)
               prCallback_keep prCallback_found) in He as (? & ? & _).
      by exists e.
    + intros (e & He & Hfork & <-).
      cut (∀ l ids, e ∈ l →
             prId e ∈ foundRepoIds ids
             ∨ prId e ∈ prId <$> (filterWith prCallback ids l).1).
      { intros Hcut. destruct (Hcut prs noRepoIds He) as [Hin|Hin]; [|done].
        by apply not_elem_of_empty in Hin. }
      clear He. induction l as [|x l IH]; intros ids Hin; [by inv Hin|].
      rewrite filterWith_cons. cbn [fst]. rewrite fmap_app, elem_of_app.
      destruct (decide (prId e ∈ foundRepoIds ids)) as [?|Hnew]; [by left|right].
      destruct (decide (prId x = prId e ∧ prFork x = false)) as [[Heq Hx]|Hne].
      * left. assert ((prCallback ids x).1 = true) as ->.
        { apply prCallback_keep. by rewrite Heq. }
        cbn. rewrite Heq. left.
      * apply elem_of_cons in Hin as [->|Hin]; [by destruct Hne|].
        destruct (IH (prCallback ids x).2 Hin) as [Hfound|?]; [|by right].
        apply prCallback_found in Hfound as [?|[? ?]]; [done|]. by destruct Hne.
Qed.

(** X3: each segment of the output keeps the order of its source: the
    records kept from the search, from the organization listings and from
    the personal listing are sublists of what the source returned. *)
Theorem segments_keep_source_order prs repos orgs :
  uniquePrRepos (aggregate prs repos orgs) `sublist_of` prs
  ∧ keptOrgRepos (aggregate prs repos orgs) `sublist_of` concat orgs
  ∧ keptRepos (aggregate prs repos orgs) `sublist_of` repos
  ∧ allRepos (aggregate prs repos orgs)
    `sublist_of` (getMappedRepo <$> repos) ++ (getMappedOrgRepo <$> concat orgs)
                   ++ (getMappedPrRepo <$> prs).
Proof.
  assert (uniquePrRepos (aggregate prs repos orgs) `sublist_of` prs) as Hpr.
  { change (uniquePrRepos ?a) with (uniquePrRepos a, idsAfterPrs a).1.
    rewrite aggregate_prs. apply filterWith_sublist. }
  assert (keptOrgRepos (aggregate prs repos orgs) `sublist_of` concat orgs) as Horg.
  { change (keptOrgRepos ?a) with (keptOrgRepos a, idsAfterOrgs a).1.
    rewrite aggregate_orgs. apply filterWith_sublist. }
  assert (keptRepos (aggregate prs repos orgs) `sublist_of` repos) as Hrepos.
  { change (keptRepos ?a) with (keptRepos a, idsAtEnd a).1.
    rewrite aggregate_repos. apply filterWith_sublist. }
  split_and!; [done..|]. unfold allRepos.
  destruct (aggregate_mapped prs repos orgs) as (-> & -> & ->).
  repeat apply sublist_app; by apply fmap_sublist.
Qed.

(** X4: a record of the personal listing is returned when it passes the
    fork, star and permission checks and is the first to carry its
    identifier: no earlier personal record, no organization record and no
    search record that is not a fork has it. *)
Theorem personal_first_occurrence_returned prs repos1 r repos2 orgs :
  (∀ y, y ∈ repos1 → raw_id y ≠ raw_id r) →
  (∀ o, o ∈ concat orgs → raw_id o ≠ raw_id r) →
  (∀ e, e ∈ prs → isFork (repository (node e)) = false → prId e ≠ raw_id r) →
  eligible r = true →
  getMappedRepo r ∈ mappedRepos (aggregate prs (repos1 ++ r :: repos2) orgs)
  ∧ getMappedRepo r ∈ allRepos (aggregate prs (repos1 ++ r :: repos2) orgs).
Proof.
  intros Hfirst Horgs Hprs Hok.
  assert (getMappedRepo r ∈ mappedRepos (aggregate prs (repos1 ++ r :: repos2) orgs))
    as Hin.
  { destruct (aggregate_mapped prs (repos1 ++ r :: repos2) orgs) as (-> & _ & _).
    apply list_elem_of_fmap_2.
    change (keptRepos ?a) with (keptRepos a, idsAtEnd a).1.
    rewrite aggregate_repos.
    apply (filterWith_first_kept _ raw_id (λ r, eligible r = true) (λ _, True)
             listingCallback_keep listingCallback_found); [|by auto|done].
    intros [(e & ? & ? & ?)%idsAfterPrs_found|(o & ? & ?)]%idsAfterOrgs_found.
    - by eapply Hprs.
    - by eapply Horgs. }
  split; [done|]. unfold allRepos. apply elem_of_app. by left.
Qed.

Lemma personal_first_occurrence_witness :
  getMappedRepo helloPersonal
    ∈ allRepos (aggregate [quietPr] ([spoonFork] ++ helloPersonal :: []) [[spoonAgain]]).
Proof.
  apply (personal_first_occurrence_returned
           [quietPr] [spoonFork] helloPersonal [] [[spoonAgain]]).
  - intros y ->%list_elem_of_singleton. discriminate.
  - intros o ->%list_elem_of_singleton. discriminate.
  - intros e ->%list_elem_of_singleton _. discriminate.
  - reflexivity.
Defined.

Lemma prCallback_rejected ids e y :
  y ∈ rejectedRepoIds (prCallback ids e).2
  ↔ y ∈ rejectedRepoIds ids ∨ (y = prId e ∧ prFork e = true).
Proof.
  unfold prCallback, prId, prFork. destruct (isFork _); cbn.
  - set_solver.
  - naive_solver.
Qed.

Lemma listingCallback_rejected ids r y :
  y ∈ rejectedRepoIds (listingCallback ids r).2
  ↔ y ∈ rejectedRepoIds ids
    ∨ (y = raw_id r ∧ (raw_id r ∉ foundRepoIds ids)
       ∧ (raw_fork r = true ∨ (raw_fork r = false
                               ∧ tooFewStars (raw_stargazers_count r) = true))).
Proof.
  unfold listingCallback. case_bool_decide; cbn; [naive_solver|].
  destruct (raw_fork r); cbn; [set_solver|].
  destruct (tooFewStars (raw_stargazers_count r)); cbn; [set_solver|naive_solver].
Qed.

Lemma filterWith_pr_rejected ids l y :
  y ∈ rejectedRepoIds (filterWith prCallback ids l).2
  ↔ y ∈ rejectedRepoIds ids ∨ ∃ e, e ∈ l ∧ prFork e = true ∧ prId e = y.
Proof.
  revert ids. induction l as [|x l IH]; intros ids.
  - cbn. split; [by left | intros [?|(e & He & _)]; [done | by inv He]].
  - rewrite filterWith_cons. cbn [snd]. rewrite IH, prCallback_rejected. split.
    + intros [[?|[-> ?]]|(e & ? & ? & ?)]; [by left|right..].
      * exists x. split_and!; [left|done..].
      * exists e. split_and!; [by right|done..].
    + intros [?|(e & [->|He]%elem_of_cons & ? & ?)]; [by left; left| |].
      * left. right. by subst.
      * right. by exists e.
Qed.

(** A listing pass adds an identifier to [rejectedRepoIds] only at the
    first record that carries it, when nothing has put it in
    [foundRepoIds] before and the record is a fork or has too few stars. *)
Lemma filterWith_listing_rejected ids l y :
  y ∈ rejectedRepoIds (filterWith listingCallback ids l).2 →
  y ∈ rejectedRepoIds ids
  ∨ ∃ l1 r l2, l = l1 ++ r :: l2 ∧ raw_id r = y ∧ (y ∉ foundRepoIds ids)
               ∧ (∀ x, x ∈ l1 → raw_id x ≠ y)
               ∧ (raw_fork r = true ∨ tooFewStars (raw_stargazers_count r) = true).
Proof.
  revert ids. induction l as [|x l IH]; intros ids; [by left|].
  rewrite filterWith_cons. cbn [snd].
  intros [Hrej|(l1 & r & l2 & -> & <- & Hnew & Hfirst & Hbad)]%IH.
  - apply listingCallback_rejected in Hrej as [?|(-> & ? & Hbad)]; [by left|].
    right. exists [], x, l. split_and!; [done..| |naive_solver].
    intros ? Hx. by inv Hx.
  - right. exists (x :: l1), r, l2. split_and!; [done..| | |done].
    + intros Hin. apply Hnew, listingCallback_found. by left.
    + intros z [->|Hz]%elem_of_cons; [|by apply Hfirst].
      intros Heq. apply Hnew, listingCallback_found. by right.
Qed.

(** X5: an identifier in [rejectedRepoIds] belongs to a search record that
    is a fork, or to a listing record that is a fork or has fewer than two
    stars (a record dropped for its permissions alone is not counted). And
    unless a fork of the search carries it, a rejected identifier is not the
    identifier of any returned record. *)
Theorem rejected_ids_are_forks_or_starless prs repos orgs y :
  y ∈ rejectedRepoIds (idsAtEnd (aggregate prs repos orgs)) →
  ((∃ e, e ∈ prs ∧ isFork (repository (node e)) = true ∧ prId e = y)
   ∨ (∃ r, r ∈ concat orgs ++ repos ∧ raw_id r = y
           ∧ (raw_fork r = true ∨ tooFewStars (raw_stargazers_count r) = true)))
  ∧ ((∀ e, e ∈ prs → prId e = y → isFork (repository (node e)) = false) →
     y ∉ githubRepoId <$> allRepos (aggregate prs repos orgs)).
Proof.
  change (idsAtEnd ?a) with (keptOrgRepos a ++ keptRepos a, idsAtEnd a).2.
  rewrite aggregate_listings. intros Hrej.
  apply filterWith_listing_rejected in Hrej
    as [Hrej|(l1 & r & l2 & Hsplit & <- & Hnew & Hfirst & Hbad)].
  - revert Hrej. change (idsAfterPrs ?a) with (uniquePrRepos a, idsAfterPrs a).2.
    rewrite aggregate_prs, filterWith_pr_rejected.
    intros [[]%not_elem_of_empty|(e & He & Hfork & <-)].
    split; [left; by exists e|]. intros Hnone. specialize (Hnone e He eq_refl).
    unfold prFork in Hfork. congruence.
  - split.
    { right. exists r. split_and!; [|done..]. rewrite Hsplit. set_solver. }
    intros _. rewrite allRepos_ids, !elem_of_app.
    assert (eligible r = false) as Hrej.
    { unfold eligible. destruct Hbad as [-> | ->]; [done|]. by destruct (raw_fork r). }
    assert (∀ k, k ∈ keptOrgRepos (aggregate prs repos orgs)
                       ++ keptRepos (aggregate prs repos orgs) →
                 raw_id k ≠ raw_id r) as Hlistings.
    { intros k.
      change (keptOrgRepos ?a ++ keptRepos ?a)
        with (keptOrgRepos a ++ keptRepos a, idsAtEnd a).1.
      rewrite aggregate_listings, Hsplit.
      apply (filterWith_first_rejected _ raw_id (λ r, eligible r = true) (λ _, True)
               listingCallback_keep listingCallback_found); [done..|congruence]. }
    intros [(k & Hk & Hkept)%list_elem_of_fmap
           |[(k & Hk & Hkept)%list_elem_of_fmap
            |(e & Hk & Hkept)%list_elem_of_fmap]].
    + apply (Hlistings k); [apply elem_of_app; by right | done].
    + apply (Hlistings k); [apply elem_of_app; by left | done].
    + apply uniquePrRepos_kept in Hkept as (_ & _ & Hfound). congruence.
Qed.

Lemma rejected_ids_witness :
  raw_id spoonFork ∉ githubRepoId <$> allRepos (aggregate [] [spoonAgain] [[spoonFork]]).
Proof.
  apply (rejected_ids_are_forks_or_starless [] [spoonAgain] [[spoonFork]]).
  - vm_compute. set_solver.
  - intros e He. inversion He.
Defined.

(** X6: whatever text the search gives as permission level, the flags the
    adapter derives are nested from [admin] down to [push], and [push]
    brings both [triage] and [pull]. *)
Theorem pr_flags_nested level pr :
  ∃ a m w t r,
    flags (getMappedPrRepo (withViewerPermission level pr)) = Some (a, m, w, t, r)
    ∧ implb a m = true ∧ implb m w = true ∧ implb w (t && r) = true.
Proof.
  eexists _, _, _, _, _. split; [reflexivity|]. unfold Js.includes.
  repeat case_bool_decide; cbn; set_solver.
Qed.

(** ** More on the repo-name list *)

Lemma split_at_first_slash a b :
  slashFree a → Js.split "/" (a +:+ String "/" b) = a :: Js.split "/" b.
Proof.
  intros Ha. induction a as [|c a IH]; rewrite ?append_empty, ?append_String; cbn.
  - by rewrite decide_True.
  - destruct Ha as [Hc Ha]. rewrite decide_False by done. by rewrite IH.
Qed.

(** X7: the name printed for a repository is the text between the first
    and the second slash of [full_name]. When [full_name] has no slash the
    word "undefined" is printed in its place, and whatever follows a second
    slash is left out. *)
Theorem repoName_without_slash_or_with_two `{HasFullName A} (repo : A) :
  (slashFree (get_full_name repo) → repoName repo = "undefined")
  ∧ (∀ owner name rest,
       get_full_name repo = owner +:+ "/" +:+ name +:+ "/" +:+ rest →
       slashFree owner → slashFree name → repoName repo = name).
Proof.
  unfold repoName. split.
  - intros Hfree. by rewrite split_slashFree.
  - intros owner name rest -> Ho Hn.
    change ("/" +:+ name +:+ "/" +:+ rest) with (String "/" (name +:+ String "/" rest)).
    by rewrite !split_at_first_slash.
Qed.

Lemma repoName_without_slash_witness :
  repoName (chosen "hello") = "undefined"
  ∧ repoName (chosen "octocat/hello/tree/main") = "hello"
  ∧ formatRepos [chosen "hello"; chosen "octocat/hello/tree/main"]
    = Some "undefined, and hello".
Proof.
  split_and!.
  - apply (repoName_without_slash_or_with_two (chosen "hello")).
    cbn. repeat split; discriminate.
  - apply (proj2 (repoName_without_slash_or_with_two (chosen "octocat/hello/tree/main"))
             "octocat" "hello" "tree/main").
    + reflexivity.
    + cbn. repeat split; discriminate.
    + cbn. repeat split; discriminate.
  - reflexivity.
Defined.

(** ** More on [POST /onboarding/intake-form] *)

Lemma validate_outcome env s :
  validate env s
  = match firstIssues env with
    | Some issues =>
        (Responded {| status := 400; sent := BIssues issues |},
         logged [CLogWarn issues; CEndTimer 400] s)
    | None => (Next (), s)
    end.
Proof.
  unfold validate, firstIssues.
  destruct (formIssues env), (reposIssues env), (imageIssues env);
    run_route; unfold logged; tidy_state.
Qed.

Lemma persist_fails env req t s :
  putItemFails env = true →
  persist env req t s
  = (Responded {| status := 400; sent := BMsg "Failed to submit intake form" |},
     logged [CPutItem (createIntakeFormDocForDynamo (body req) t).1
                      (createIntakeFormDocForDynamo (body req) t).2;
             CLogError PutItemFailed; CEndTimer 400] s).
Proof.
  intros Hput. unfold persist, createIntakeFormDocForDynamo, putItem. run_route.
  rewrite Hput. unfold logged. tidy_state.
Qed.

Lemma pushImages_update_fails env req t s :
  (∀ j, j < length (files req) → uploadFails env j = false) →
  0 < length (files req) →
  updateItemFails env = true →
  pushImages env req t s
  = (Responded {| status := 400;
                  sent := BMsg "Failed to submit image URLs to DynamoDB" |},
     {| table := table s;
        urls := urls s ++ (imageUrl env req t <$> seq 0 (length (files req)));
        tableCount := tableCount s;
        trace :=
          trace s ++ (uploadCall env req t <$> seq 0 (length (files req)))
            ++ [CUpdateItem (email (body req) +:+ "-" +:+ githubHandle (body req), t)
                  (urls s ++ (imageUrl env req t <$> seq 0 (length (files req))));
                CLogError UpdateItemFailed; CEndTimer 400] |}).
Proof.
  intros Hup Hfiles Hupd. unfold pushImages. rewrite bool_decide_eq_true_2 by done.
  erewrite bind_Next; [|by apply uploadImages_succeeds].
  unfold createUpdateItemParamsForImages, updateItem. run_route.
  rewrite Hupd. unfold logged. tidy_state.
Qed.

Lemma notify_after_scan env req s :
  scanFails env = false →
  notify env req s
  = (Next (),
     {| table := table s; urls := urls s;
        tableCount := Some (incompleteCount (table s));
        trace := trace s ++ CScan ::
                   mailCalls env (body req) (Some (incompleteCount (table s))) (urls s) |}).
Proof.
  intros Hscan. unfold notify, scanIncomplete, sendConfirmationEmail,
    sendInternalConfirmationEmail, mailCalls, incompleteCount.
  run_route. rewrite Hscan. cbn [table urls tableCount trace].
  destruct (confirmationModel _ _) as [model|]; [|unfold logged; tidy_state].
  run_route. destruct (sendEmailWithTemplateFails env); [unfold logged; tidy_state|].
  cbn [table urls tableCount trace].
  destruct (sendEmailFails env); unfold logged; tidy_state.
Qed.

Lemma first_failure (f : nat → bool) n :
  (∀ j, j < n → f j = false)
  ∨ ∃ k, k < n ∧ f k = true ∧ ∀ j, j < k → f j = false.
Proof.
  induction n as [|n [IH|(k & ? & ? & ?)]].
  - left. lia.
  - destruct (f n) eqn:Hn.
    + right. exists n. split_and!; [lia|done..].
    + left. intros j Hj. destruct (decide (j = n)) as [->|]; [done|]. apply IH. lia.
  - right. exists k. split_and!; [lia|done..].
Qed.

Lemma accepted_true env req :
  accepted env req = true
  ↔ firstIssues env = None ∧ putItemFails env = false
    ∧ (∀ j, j < length (files req) → uploadFails env j = false)
    ∧ (0 < length (files req) → updateItemFails env = false).
Proof.
  unfold accepted.
  rewrite !andb_true_iff, orb_true_iff, !negb_true_iff, !bool_decide_eq_true,
    List.forallb_forall.
  split.
  - intros (((? & ?) & Hup) & Hupd). split_and!; [done..| |].
    + intros j Hj. apply negb_true_iff, Hup, in_seq. lia.
    + intros ?. destruct Hupd; [lia|done].
  - intros (? & ? & Hup & Hupd). split_and!; [done..| |].
    + intros j [_ ?]%in_seq. apply negb_true_iff, Hup. lia.
    + destruct (files req); [by left|right]. apply Hupd. cbn. lia.
Qed.

(** The request whose critical stages all succeed, in full. *)
Lemma postIntakeForm_accepted env req t table0 :
  accepted env req = true →
  postIntakeForm env req t table0
  = (Some {| status := 200;
             sent := BSubmitted (body req)
                       (if scanFails env then None
                        else Some (incompleteCount (storedTable env req t table0)))
                       "Successfully submitted intake form" |},
     {| table := storedTable env req t table0;
        urls := imageUrl env req t <$> seq 0 (length (files req));
        tableCount := if scanFails env then None
                      else Some (incompleteCount (storedTable env req t table0));
        trace := recordedCalls env req t
                   ++ notifyCalls env req t (storedTable env req t table0)
                   ++ [CEndTimer 200] |}).
Proof.
  intros (Hv & Hput & Hup & Hupd)%accepted_true. unfold postIntakeForm, intakeForm.
  erewrite bind_Next; [|by rewrite validate_outcome, Hv].
  erewrite bind_Next; [|by apply persist_succeeds].
  erewrite bind_Next; [|by apply pushImages_succeeds].
  unfold storedTable, recordedCalls, notifyCalls, createIntakeFormDocForDynamo.
  cbv beta iota. cbn [fst snd table urls tableCount trace].
  destruct (scanFails env) eqn:Hscan.
  - erewrite bind_Next; [|by apply notify_scan_fails].
    rewrite finish_responds. unfold logged.
    case_bool_decide as Hfiles; tidy_state; rewrite <- ?app_assoc; try done.
    destruct (files req); [|cbn in Hfiles; lia]. tidy_state.
  - erewrite bind_Next; [|by apply notify_after_scan].
    rewrite finish_responds. unfold logged.
    case_bool_decide as Hfiles; tidy_state; rewrite <- ?app_assoc; try done.
    destruct (files req); [|cbn in Hfiles; lia]. tidy_state.
Qed.

Lemma firstIssues_None env :
  firstIssues env = None
  ↔ formIssues env = None ∧ reposIssues env = None ∧ imageIssues env = None.
Proof.
  unfold firstIssues.
  destruct (formIssues env), (reposIssues env), (imageIssues env); naive_solver.
Qed.

Lemma postIntakeForm_invalid env req t table0 issues :
  firstIssues env = Some issues →
  postIntakeForm env req t table0
  = (Some {| status := 400; sent := BIssues issues |},
     {| table := table0; urls := []; tableCount := None;
        trace := [CLogWarn issues; CEndTimer 400] |}).
Proof.
  intros Hv. unfold postIntakeForm, intakeForm.
  erewrite bind_Responded; [done|]. by rewrite validate_outcome, Hv.
Qed.

Lemma postIntakeForm_put_fails env req t table0 :
  firstIssues env = None →
  putItemFails env = true →
  postIntakeForm env req t table0
  = (Some {| status := 400; sent := BMsg "Failed to submit intake form" |},
     {| table := table0; urls := []; tableCount := None;
        trace := [CPutItem (createIntakeFormDocForDynamo (body req) t).1
                           (createIntakeFormDocForDynamo (body req) t).2;
                  CLogError PutItemFailed; CEndTimer 400] |}).
Proof.
  intros Hv Hput. unfold postIntakeForm, intakeForm.
  erewrite bind_Next; [|by rewrite validate_outcome, Hv].
  erewrite bind_Responded; [done|]. by apply persist_fails.
Qed.

Lemma postIntakeForm_update_fails env req t table0 :
  firstIssues env = None →
  putItemFails env = false →
  (∀ j, j < length (files req) → uploadFails env j = false) →
  0 < length (files req) →
  updateItemFails env = true →
  postIntakeForm env req t table0
  = (Some {| status := 400;
             sent := BMsg "Failed to submit image URLs to DynamoDB" |},
     {| table := <[(createIntakeFormDocForDynamo (body req) t).1 :=
                     (createIntakeFormDocForDynamo (body req) t).2]> table0;
        urls := imageUrl env req t <$> seq 0 (length (files req));
        tableCount := None;
        trace := CPutItem (createIntakeFormDocForDynamo (body req) t).1
                          (createIntakeFormDocForDynamo (body req) t).2
                   :: (uploadCall env req t <$> seq 0 (length (files req)))
                   ++ [CUpdateItem (createIntakeFormDocForDynamo (body req) t).1
                         (imageUrl env req t <$> seq 0 (length (files req)));
                       CLogError UpdateItemFailed; CEndTimer 400] |}).
Proof.
  intros Hv Hput Hup Hfiles Hupd. unfold postIntakeForm, intakeForm.
  erewrite bind_Next; [|by rewrite validate_outcome, Hv].
  erewrite bind_Next; [|by apply persist_succeeds].
  erewrite bind_Responded; [|by apply pushImages_update_fails].
  tidy_state.
Qed.

(** X8: when a schema fails, the response is the 400 that lists the issues
    of the first failing schema (form fields, then selection, then images),
    and the handler has called none of its collaborators: the table is as it
    was, nothing is uploaded, no e-mail is sent. *)
Theorem invalid_request_rejected_before_any_call env req t table0 issues :
  firstIssues env = Some issues →
  postIntakeForm env req t table0
  = (Some {| status := 400; sent := BIssues issues |},
     {| table := table0; urls := []; tableCount := None;
        trace := [CLogWarn issues; CEndTimer 400] |})
  ∧ (formIssues env = Some issues
     ∨ (formIssues env = None ∧ reposIssues env = Some issues)
     ∨ (formIssues env = None ∧ reposIssues env = None
        ∧ imageIssues env = Some issues)).
Proof.
  intros Hv. split; [by apply postIntakeForm_invalid|].
  unfold firstIssues in Hv.
  destruct (formIssues env), (reposIssues env), (imageIssues env); naive_solver.
Qed.

Lemma invalid_request_witness :
  postIntakeForm badForm fourImages 1700000000 ∅
  = (Some {| status := 400; sent := BIssues ["email: Invalid email"] |},
     {| table := ∅; urls := []; tableCount := None;
        trace := [CLogWarn ["email: Invalid email"]; CEndTimer 400] |}).
Proof.
  apply (invalid_request_rejected_before_any_call badForm fourImages 1700000000 ∅).
  reflexivity.
Defined.

(** X9: when the write of the record throws, the response is the 400 of the
    failed submission, the table is as it was, and nothing follows the
    write: no upload, no scan, no e-mail. *)
Theorem put_failure_stops_the_request env req t table0 :
  firstIssues env = None →
  putItemFails env = true →
  postIntakeForm env req t table0
  = (Some {| status := 400; sent := BMsg "Failed to submit intake form" |},
     {| table := table0; urls := []; tableCount := None;
        trace := [CPutItem (createIntakeFormDocForDynamo (body req) t).1
                           (createIntakeFormDocForDynamo (body req) t).2;
                  CLogError PutItemFailed; CEndTimer 400] |}).
Proof. apply postIntakeForm_put_fails. Qed.

Lemma put_failure_witness :
  (postIntakeForm putDown fourImages 1700000000 ∅).1
  = Some {| status := 400; sent := BMsg "Failed to submit intake form" |}
  ∧ table (postIntakeForm putDown fourImages 1700000000 ∅).2 = ∅.
Proof.
  rewrite (put_failure_stops_the_request putDown fourImages 1700000000 ∅);
    [split|..]; reflexivity.
Defined.

(** X10: when every image is uploaded and the update of the record throws,
    the response is the 400 of the failed update; all the images are in the
    bucket, the record is in the table without any of their URLs, and no
    e-mail is sent. *)
Theorem update_failure_leaves_record_without_images env req t table0 :
  firstIssues env = None →
  putItemFails env = false →
  (∀ j, j < length (files req) → uploadFails env j = false) →
  0 < length (files req) →
  updateItemFails env = true →
  (postIntakeForm env req t table0).1
  = Some {| status := 400;
            sent := BMsg "Failed to submit image URLs to DynamoDB" |}
  ∧ uploadIndices (trace (postIntakeForm env req t table0).2)
    = seq 0 (length (files req))
  ∧ table (postIntakeForm env req t table0).2
      !! (createIntakeFormDocForDynamo (body req) t).1
    = Some (createIntakeFormDocForDynamo (body req) t).2
  ∧ item_images (createIntakeFormDocForDynamo (body req) t).2 = None
  ∧ List.filter isMail (trace (postIntakeForm env req t table0).2) = [].
Proof.
  intros Hv Hput Hup Hfiles Hupd.
  rewrite (postIntakeForm_update_fails env req t table0) by done.
  cbn [fst snd trace table]. split_and!.
  - done.
  - change (uploadIndices (?c :: ?tr)) with (uploadIndices tr).
    by rewrite uploadIndices_app, uploadIndices_uploadCalls, app_nil_r.
  - apply lookup_insert_eq.
  - done.
  - change (List.filter isMail (?c :: ?tr)) with (List.filter isMail tr).
    by rewrite List.filter_app, uploadCalls_no_mail.
Qed.

Lemma update_failure_witness :
  (postIntakeForm updateDown fourImages 1700000000 ∅).1
  = Some {| status := 400;
            sent := BMsg "Failed to submit image URLs to DynamoDB" |}
  ∧ uploadIndices (trace (postIntakeForm updateDown fourImages 1700000000 ∅).2)
    = [0; 1; 2; 3].
Proof.
  destruct (update_failure_leaves_record_without_images
              updateDown fourImages 1700000000 ∅)
    as (Hresp & Hidx & _).
  - reflexivity.
  - reflexivity.
  - intros j Hj. reflexivity.
  - cbn. lia.
  - reflexivity.
  - split; [exact Hresp | exact Hidx].
Defined.

Lemma storedTable_lookup env req t table0 :
  storedTable env req t table0 !! (createIntakeFormDocForDynamo (body req) t).1
  = Some (if bool_decide (0 < length (files req))
          then setImages (imageUrl env req t <$> seq 0 (length (files req)))
                 (createIntakeFormDocForDynamo (body req) t).2
          else (createIntakeFormDocForDynamo (body req) t).2).
Proof.
  unfold storedTable, createIntakeFormDocForDynamo. cbv beta iota. cbn [fst snd].
  case_bool_decide.
  - by rewrite lookup_alter_eq, lookup_insert_eq.
  - by rewrite lookup_insert_eq.
Qed.

Lemma storedTable_lookup_ne env req t table0 key :
  key ≠ (createIntakeFormDocForDynamo (body req) t).1 →
  storedTable env req t table0 !! key = table0 !! key.
Proof.
  intros Hne. unfold storedTable, createIntakeFormDocForDynamo in *.
  cbv beta iota. cbn [fst snd] in *. case_bool_decide.
  - by rewrite lookup_alter_ne, lookup_insert_ne.
  - by rewrite lookup_insert_ne.
Qed.

(** The record of a request is incomplete, so it counts in the scan. *)
Lemma storedTable_counts_the_record env req t table0 :
  1 ≤ incompleteCount (storedTable env req t table0)
  ∧ (table0 !! (createIntakeFormDocForDynamo (body req) t).1 = None →
     incompleteCount (storedTable env req t table0) = S (incompleteCount table0)).
Proof.
  assert (∃ item, item_isComplete item = false
                  ∧ storedTable env req t table0
                    = <[(createIntakeFormDocForDynamo (body req) t).1 := item]> table0)
    as (item & Hitem & ->).
  { unfold storedTable, createIntakeFormDocForDynamo. cbv beta iota. cbn [fst snd].
    case_bool_decide; [rewrite alter_insert_eq|];
      (eexists; split; [|reflexivity]; done). }
  unfold incompleteCount. rewrite map_filter_insert_True by done. split.
  - cut (size (<[(createIntakeFormDocForDynamo (body req) t).1:=item]>
                 (filter (λ kv, item_isComplete kv.2 = false) table0)) ≠ 0); [lia|].
    apply map_size_non_empty_iff. intros Hempty.
    apply (f_equal (lookup (createIntakeFormDocForDynamo (body req) t).1)) in Hempty.
    by rewrite lookup_insert_eq, lookup_empty in Hempty.
  - intros Hnew. apply map_size_insert_None, map_lookup_filter_None. by left.
Qed.

(** X11: when every critical stage succeeds and the scan answers, the
    response is the 200 of a successful submission whatever the mail service
    does, and its queue number is the number of incomplete records of the
    table as the request leaves it. The new record is one of them, so the
    number is at least 1, and it is one more than the count before the
    request when the key of the record was free. The record carries the URLs
    of its images, in the order of the upload, when there are images, and
    no [images] attribute otherwise. *)
Theorem accepted_request_gets_queue_number env req t table0 :
  accepted env req = true →
  scanFails env = false →
  (postIntakeForm env req t table0).1
  = Some {| status := 200;
            sent := BSubmitted (body req)
                      (Some (incompleteCount (table (postIntakeForm env req t table0).2)))
                      "Successfully submitted intake form" |}
  ∧ 1 ≤ incompleteCount (table (postIntakeForm env req t table0).2)
  ∧ (table0 !! (createIntakeFormDocForDynamo (body req) t).1 = None →
     incompleteCount (table (postIntakeForm env req t table0).2)
     = S (incompleteCount table0))
  ∧ table (postIntakeForm env req t table0).2
      !! (createIntakeFormDocForDynamo (body req) t).1
    = Some (if bool_decide (0 < length (files req))
            then setImages (imageUrl env req t <$> seq 0 (length (files req)))
                   (createIntakeFormDocForDynamo (body req) t).2
            else (createIntakeFormDocForDynamo (body req) t).2).
Proof.
  intros Hok Hscan. rewrite postIntakeForm_accepted by done. rewrite Hscan.
  cbn [fst snd table].
  destruct (storedTable_counts_the_record env req t table0) as [? ?].
  split_and!; [done..|]. apply storedTable_lookup.
Qed.

Lemma accepted_request_witness :
  (postIntakeForm templateDown fourImages 1700000000 ∅).1
  = Some {| status := 200;
            sent := BSubmitted (body fourImages) (Some 1)
                      "Successfully submitted intake form" |}.
Proof.
  destruct (accepted_request_gets_queue_number templateDown fourImages 1700000000 ∅)
    as (Hresp & _ & Hone & _); [reflexivity..|].
  rewrite Hresp, Hone; reflexivity.
Defined.

Lemma recordedCalls_no_mail env req t :
  List.filter isMail (recordedCalls env req t) = [].
Proof.
  unfold recordedCalls, createIntakeFormDocForDynamo. cbn [List.filter isMail].
  case_bool_decide; [|done]. by rewrite List.filter_app, uploadCalls_no_mail.
Qed.

Lemma accepted_mails env req t table0 :
  accepted env req = true →
  List.filter isMail (trace (postIntakeForm env req t table0).2)
  = if scanFails env then []
    else List.filter isMail
           (mailCalls env (body req)
              (Some (incompleteCount (storedTable env req t table0)))
              (imageUrl env req t <$> seq 0 (length (files req)))).
Proof.
  intros Hok. rewrite postIntakeForm_accepted by done. cbn [snd trace].
  rewrite !List.filter_app, recordedCalls_no_mail. unfold notifyCalls.
  cbn [List.filter isMail app]. destruct (scanFails env); [done|].
  by rewrite app_nil_r.
Qed.

(** X12: when every critical stage succeeds, the scan answers, a repository
    is selected and the mail service answers, the handler sends exactly two
    e-mails: the confirmation to the address of the form, then the internal
    one with the URLs of the images, both carrying the queue number of the
    response. *)
Theorem accepted_request_sends_both_emails env req t table0 :
  accepted env req = true →
  scanFails env = false →
  repos (body req) ≠ [] →
  sendEmailWithTemplateFails env = false →
  sendEmailFails env = false →
  ∃ model,
    List.filter isMail (trace (postIntakeForm env req t table0).2)
    = [CSendEmailWithTemplate model;
       CSendEmail
         (internalEmail (body req)
            (Some (incompleteCount (table (postIntakeForm env req t table0).2)))
            (imageUrl env req t <$> seq 0 (length (files req))))]
    ∧ tm_to model = email (body req)
    ∧ tm_queue_number model
      = Some (incompleteCount (table (postIntakeForm env req t table0).2))
    ∧ formatRepos (repos (body req)) = Some (tm_repos model).
Proof.
  intros Hok Hscan Hsel Htpl Hmail. rewrite accepted_mails by done.
  rewrite postIntakeForm_accepted by done. cbn [snd table]. rewrite Hscan.
  unfold mailCalls, confirmationModel. rewrite Htpl, Hmail.
  destruct (repos (body req)) as [|first rest] eqn:Hrepos; [done|].
  cbn [formatRepos mbind option_bind]. eexists. split; [reflexivity|]. done.
Qed.

Lemma accepted_request_emails_witness :
  length (List.filter isMail (trace (postIntakeForm calm fourImages 1700000000 ∅).2))
  = 2.
Proof.
  destruct (accepted_request_sends_both_emails calm fourImages 1700000000 ∅)
    as (model & -> & _); [reflexivity..|discriminate|reflexivity|reflexivity|].
  reflexivity.
Defined.



Lemma uploadCalls_quiet env req t l :
  Forall (λ c, isEndTimer c = false ∧ isMail c = false) (uploadCall env req t <$> l).
Proof. apply Forall_fmap, Forall_true. done. Qed.

(** The request that is not accepted: a 400, a trace that ends with the
    timer and holds no e-mail, and a table that differs from the one before
    at the key of the request at most. *)
Lemma postIntakeForm_not_accepted env req t table0 :
  accepted env req = false →
  ∃ b calls,
    (postIntakeForm env req t table0).1 = Some {| status := 400; sent := b |}
    ∧ trace (postIntakeForm env req t table0).2 = calls ++ [CEndTimer 400]
    ∧ Forall (λ c, isEndTimer c = false ∧ isMail c = false) calls
    ∧ ∀ key, key ≠ (createIntakeFormDocForDynamo (body req) t).1 →
             table (postIntakeForm env req t table0).2 !! key = table0 !! key.
Proof.
  intros Hno.
  destruct (firstIssues env) as [issues|] eqn:Hv.
  { rewrite (postIntakeForm_invalid _ _ _ _ issues) by done.
    eexists _, [CLogWarn issues]. split_and!; [done..| |done].
    by repeat constructor. }
  destruct (putItemFails env) eqn:Hput.
  { rewrite postIntakeForm_put_fails by done.
    eexists _, [CPutItem _ _; CLogError PutItemFailed]. split_and!; [done..| |done].
    by repeat constructor. }
  destruct (first_failure (uploadFails env) (length (files req)))
    as [Hup|(k & Hk & Hfail & Hbefore)].
  - destruct (updateItemFails env) eqn:Hupd; last first.
    { rewrite (proj2 (accepted_true env req)) in Hno; [done|]. by split_and!. }
    destruct (decide (0 < length (files req))) as [Hfiles|Hnone]; last first.
    { rewrite (proj2 (accepted_true env req)) in Hno; [done|]. split_and!; [done..|lia]. }
    rewrite postIntakeForm_update_fails by done. cbn [fst snd trace table].
    eexists _, (CPutItem _ _ :: (uploadCall env req t <$> seq 0 (length (files req)))
                  ++ [CUpdateItem _ _; CLogError UpdateItemFailed]).
    split_and!; [done| | |].
    + cbn. by rewrite <- app_assoc.
    + constructor; [done|]. apply Forall_app. split; [apply uploadCalls_quiet|].
      by repeat constructor.
    + intros key Hkey. by rewrite lookup_insert_ne.
  - apply firstIssues_None in Hv as (? & ? & ?).
    rewrite (postIntakeForm_upload_fails env req t table0 k) by done.
    cbn [fst snd trace table].
    eexists _, (CPutItem _ _ :: (uploadCall env req t <$> seq 0 (S k))
                  ++ [CLogError UploadFailed]).
    split_and!; [done| | |].
    + cbn -[seq]. by rewrite <- app_assoc.
    + constructor; [done|]. apply Forall_app. split; [apply uploadCalls_quiet|].
      by repeat constructor.
    + intros key Hkey. by rewrite lookup_insert_ne.
Qed.




(** X15: the handler reads and writes one key of the table, the one made of
    the e-mail address, the GitHub handle and the time of the request; the
    record under any other key is, on every path, what it was. *)
Theorem other_records_untouched env req t table0 key :
  key ≠ (email (body req) +:+ "-" +:+ githubHandle (body req), t) →
  table (postIntakeForm env req t table0).2 !! key = table0 !! key.
Proof.
  intros Hkey. destruct (accepted env req) eqn:Hok.
  - rewrite postIntakeForm_accepted by done. by apply storedTable_lookup_ne.
  - destruct (postIntakeForm_not_accepted env req t table0 Hok)
      as (_ & _ & _ & _ & _ & Hother).
    by apply Hother.
Qed.

Lemma other_records_witness :
  table (postIntakeForm calm fourImages 1700000000 ∅).2
    !! ("someone@example.org-someone", 1700000000%Z) = None.
Proof.
  rewrite (other_records_untouched calm fourImages 1700000000 ∅); [reflexivity|].
  discriminate.
Defined.

(** X16: an e-mail is sent only by a request that is answered with 200 and
    whose record is in the table. *)
Theorem email_only_after_record_is_stored env req t table0 c :
  c ∈ trace (postIntakeForm env req t table0).2 →
  isMail c = true →
  status <$> (postIntakeForm env req t table0).1 = Some 200
  ∧ is_Some (table (postIntakeForm env req t table0).2
               !! (email (body req) +:+ "-" +:+ githubHandle (body req), t)).
Proof.
  intros Hc Hmail. destruct (accepted env req) eqn:Hok.
  - rewrite postIntakeForm_accepted by done. split; [done|]. cbn [snd table].
    change (email (body req) +:+ "-" +:+ githubHandle (body req), t)
      with (createIntakeFormDocForDynamo (body req) t).1.
    rewrite storedTable_lookup. by eexists.
  - destruct (postIntakeForm_not_accepted env req t table0 Hok)
      as (b & calls & _ & Htrace & Hquiet & _).
    rewrite Htrace in Hc. apply elem_of_app in Hc as [Hc|Hc%list_elem_of_singleton].
    + rewrite Forall_forall in Hquiet. destruct (Hquiet c Hc). congruence.
    + by subst.
Qed.

Lemma email_only_after_record_witness :
  status <$> (postIntakeForm calm plainRequest 1700000000 ∅).1 = Some 200.
Proof.
  eapply (email_only_after_record_is_stored calm plainRequest 1700000000 ∅
            (CSendEmail _)).
  - vm_compute. right; right; right. left.
  - reflexivity.
Defined.

(** X17: the object keys of the images of one request are pairwise
    distinct, so no upload of a request overwrites another one of the same
    request. *)
Theorem object_keys_are_distinct req t n :
  NoDup (objectKey req t <$> seq 0 n).
Proof.
  apply NoDup_fmap_2; [|apply NoDup_seq].
  intros i j Heq. unfold objectKey in Heq.
  repeat apply (inj (String.app _)) in Heq. by apply (inj pretty) in Heq.
Qed.

(** X18: the two choices of the form are stored by their truthiness and
    printed by comparison with "true". So the text "false" is stored as
    [true] in the record, while the confirmation e-mail prints the wording
    of a negative answer. *)
Theorem false_choice_is_stored_as_true formData t queueNumber model :
  shouldGitPOAPDesign formData = "false" →
  isOneGitPOAPPerRepo formData = "false" →
  confirmationModel formData queueNumber = Some model →
  item_shouldGitPOAPDesign (createIntakeFormDocForDynamo formData t).2 = true
  ∧ item_isOneGitPOAPPerRepo (createIntakeFormDocForDynamo formData t).2 = true
  ∧ tm_shouldGitPOAPDesign model = "You"
  ∧ tm_isOneGitPOAPPerRepo model = "One For All".
Proof.
  intros Hdesign Hone. unfold confirmationModel.
  destruct (formatRepos (repos formData)); [|done]. cbn. intros [= <-]. cbn.
  by rewrite Hdesign, Hone.
Qed.

Lemma false_choice_witness :
  item_shouldGitPOAPDesign (createIntakeFormDocForDynamo declining 1700000000).2 = true
  ∧ item_isOneGitPOAPPerRepo (createIntakeFormDocForDynamo declining 1700000000).2 = true.
Proof.
  destruct (false_choice_is_stored_as_true declining 1700000000 (Some 3)
              {| tm_to := "mona@example.org"; tm_queue_number := Some 3;
                 tm_name := Some "Mona"; tm_email := "mona@example.org";
                 tm_githubHandle := "octocat"; tm_shouldGitPOAPDesign := "You";
                 tm_isOneGitPOAPPerRepo := "One For All"; tm_notes := None;
                 tm_repos := "hello" |})
    as (Hdesign & Hone & _); [reflexivity..|].
  split; [exact Hdesign | exact Hone].
Defined.

(** ** The membership resolver *)

Lemma lowerChar_idemp c : lowerChar (lowerChar c) = lowerChar c.
Proof. by destruct c as [[] [] [] [] [] [] [] []]. Qed.

Lemma toLowerCase_idemp s : toLowerCase (toLowerCase s) = toLowerCase s.
Proof. induction s as [|c s IH]; cbn; [done|]. by rewrite lowerChar_idemp, IH. Qed.

Lemma ownerAndAddress_inr payload team addr db id :
  ownerAndAddress payload team addr db = inr id →
  ∃ p ownerAddress,
    payload = Some p ∧ teams db !! team = Some ownerAddress
    ∧ toLowerCase ownerAddress = toLowerCase (address p)
    ∧ addresses db !! toLowerCase addr = Some id.
Proof.
  unfold ownerAndAddress. destruct payload as [p|]; [|done].
  destruct (teams db !! team) as [ownerAddress|]; [|done].
  case_bool_decide as Howner; [done|].
  destruct (addresses db !! toLowerCase addr) as [id'|]; [|done].
  intros [= <-]. exists p, ownerAddress. split_and!; [done..| |done].
  by destruct (decide (toLowerCase ownerAddress = toLowerCase (address p))).
Qed.

(** X19: [addNewMembership] and [removeMembership] change the database only
    for a caller whose address, letter case aside, is the address of the
    owner of the team; and whoever calls, they leave the teams and the
    addresses as they are. *)
Theorem only_the_owner_changes_memberships payload team addr db :
  ((addNewMembership payload team addr db).2 ≠ db
   ∨ (removeMembership payload team addr db).2 ≠ db →
   ∃ p ownerAddress,
     payload = Some p ∧ teams db !! team = Some ownerAddress
     ∧ toLowerCase ownerAddress = toLowerCase (address p))
  ∧ teams (addNewMembership payload team addr db).2 = teams db
  ∧ addresses (addNewMembership payload team addr db).2 = addresses db
  ∧ teams (removeMembership payload team addr db).2 = teams db
  ∧ addresses (removeMembership payload team addr db).2 = addresses db.
Proof.
  unfold addNewMembership, removeMembership.
  destruct (ownerAndAddress payload team addr db) as [refusal|id] eqn:Hchecks.
  { split_and!; [|done..]. by intros [?|?]. }
  apply ownerAndAddress_inr in Hchecks as (p & ownerAddress & ? & ? & ? & _).
  split; [intros _; by exists p, ownerAddress|].
  by destruct (memberships db !! (team, id)).
Qed.

Lemma only_the_owner_witness :
  ∃ p ownerAddress,
    clubOwner = Some p ∧ teams clubDb !! 1%Z = Some ownerAddress
    ∧ toLowerCase ownerAddress = toLowerCase (address p).
Proof.
  apply (proj1 (only_the_owner_changes_memberships clubOwner 1 "0xBEEF" clubDb)).
  left. intros Heq. apply (f_equal (λ db, memberships db !! (1%Z, 20%Z))) in Heq.
  vm_compute in Heq. discriminate Heq.
Defined.

(** X20: a membership that [addNewMembership] has just created is removed
    by [removeMembership] with the same arguments, which returns it and
    leaves the memberships as they were before the two calls. *)
Theorem add_then_remove_restores payload team addr db created db1 :
  addNewMembership payload team addr db = (Returned (succeeded created), db1) →
  removeMembership payload team addr db1
  = (Returned (succeeded created), withMemberships (memberships db) db)
  ∧ acceptanceStatus created = "PENDING" ∧ role created = "ADMIN".
Proof.
  unfold addNewMembership, removeMembership.
  destruct (ownerAndAddress payload team addr db) as [refusal|id] eqn:Hchecks.
  { intros [= ? ?]. subst. unfold ownerAndAddress in Hchecks.
    destruct payload; [|done]. destruct (teams db1 !! team); [|done].
    case_bool_decide; [done|]. by destruct (addresses db1 !! toLowerCase addr). }
  destruct (memberships db !! (team, id)) eqn:Hfree; [done|].
  intros [= <- <-].
  assert (ownerAndAddress payload team addr
            (withMemberships
               (<[(team, id):={| teamId := team; addressId := id; role := "ADMIN";
                                 acceptanceStatus := "PENDING"; joinedOn := None |}]>
                  (memberships db)) db) = inr id) as -> by done.
  cbn [memberships withMemberships]. rewrite lookup_insert_eq.
  split; [|done]. unfold withMemberships. cbn. by rewrite delete_insert_eq, delete_id.
Qed.

Lemma add_then_remove_witness :
  memberships (removeMembership clubOwner 1 "0xBEEF"
                 (addNewMembership clubOwner 1 "0xBEEF" clubDb).2).2
  = memberships clubDb.
Proof.
  destruct (add_then_remove_restores clubOwner 1 "0xBEEF" clubDb
              {| teamId := 1; addressId := 20; role := "ADMIN";
                 acceptanceStatus := "PENDING"; joinedOn := None |}
              (addNewMembership clubOwner 1 "0xBEEF" clubDb).2) as [-> _];
    reflexivity.
Defined.

(** X21: [acceptMembership] succeeds only on the membership of the caller's
    own address in the team, and only while it is pending. It then marks
    that membership accepted and dates it, keeps its role, and changes no
    other membership. *)
Theorem accept_marks_own_pending_membership p team now db accepted_ db1 :
  acceptMembership (Some p) team now db = (Returned (succeeded accepted_), db1) →
  ∃ id m,
    addresses db !! toLowerCase (address p) = Some id
    ∧ memberships db !! (team, id) = Some m
    ∧ acceptanceStatus m = "PENDING"
    ∧ accepted_ = {| teamId := teamId m; addressId := addressId m; role := role m;
                     acceptanceStatus := "ACCEPTED"; joinedOn := Some now |}
    ∧ memberships db1 = <[(team, id) := accepted_]> (memberships db)
    ∧ ∀ k, k ≠ (team, id) → memberships db1 !! k = memberships db !! k.
Proof.
  unfold acceptMembership. destruct (teams db !! team); [|done].
  destruct (addresses db !! toLowerCase (address p)) as [id|]; [|done].
  destruct (memberships db !! (team, id)) as [m|] eqn:Hm; [|done].
  case_bool_decide as Hpending; [done|]. intros [= <- <-].
  exists id, m. split_and!; [done..| |done|done|].
  - by destruct (decide (acceptanceStatus m = "PENDING")).
  - intros k Hk. cbn. by rewrite lookup_insert_ne.
Qed.

(** X22: a membership is accepted once: after a call of [acceptMembership]
    that succeeded, the same call is refused with the message that the
    membership is already accepted, and changes nothing. *)
Theorem accept_twice_is_refused p team now later db accepted_ db1 :
  acceptMembership (Some p) team now db = (Returned (succeeded accepted_), db1) →
  acceptMembership (Some p) team later db1
  = (Returned (failed ("Membership is already accepted: " +:+ address p)), db1).
Proof.
  unfold acceptMembership. destruct (teams db !! team) eqn:Hteam; [|done].
  destruct (addresses db !! toLowerCase (address p)) as [id|] eqn:Haddr; [|done].
  destruct (memberships db !! (team, id)) as [m|] eqn:Hm; [|done].
  case_bool_decide as Hpending; [done|]. intros [= <- <-].
  cbn [teams addresses memberships withMemberships].
  rewrite Hteam, Haddr, lookup_insert_eq. cbn [acceptanceStatus].
  by rewrite bool_decide_eq_true_2.
Qed.

(** X23: the invitation round: after the owner has added an address to the
    team, the user of that address (in any letter case) can accept, and is
    then an accepted ADMIN of the team, dated by the acceptance. *)
Theorem added_member_can_accept payload team addr db created db1 p now :
  addNewMembership payload team addr db = (Returned (succeeded created), db1) →
  toLowerCase (address p) = toLowerCase addr →
  ∃ db2,
    acceptMembership (Some p) team now db1
    = (Returned (succeeded {| teamId := team; addressId := addressId created;
                             role := "ADMIN"; acceptanceStatus := "ACCEPTED";
                             joinedOn := Some now |}), db2)
    ∧ memberships db2 !! (team, addressId created)
      = Some {| teamId := team; addressId := addressId created; role := "ADMIN";
                acceptanceStatus := "ACCEPTED"; joinedOn := Some now |}.
Proof.
  unfold addNewMembership.
  destruct (ownerAndAddress payload team addr db) as [refusal|id] eqn:Hchecks.
  { intros [= ? ?]. subst. unfold ownerAndAddress in Hchecks.
    destruct payload; [|done]. destruct (teams db1 !! team); [|done].
    case_bool_decide; [done|]. by destruct (addresses db1 !! toLowerCase addr). }
  apply ownerAndAddress_inr in Hchecks as (_ & ownerAddress & _ & Hteam & _ & Haddr).
  destruct (memberships db !! (team, id)) eqn:Hfree; [done|].
  intros [= <- <-] Hcase. unfold acceptMembership.
  cbn [teams addresses memberships withMemberships addressId].
  rewrite Hteam, Hcase, Haddr, lookup_insert_eq. cbn [acceptanceStatus].
  rewrite bool_decide_eq_false_2 by (intros Hne; by apply Hne).
  eexists. split; [reflexivity|]. cbn. by rewrite lookup_insert_eq.
Qed.

Lemma accept_marks_witness :
  ∃ id m,
    addresses clubInvited !! toLowerCase "0xBEEF" = Some id
    ∧ memberships clubInvited !! (1%Z, id) = Some m
    ∧ acceptanceStatus m = "PENDING".
Proof.
  destruct (accept_marks_own_pending_membership
              {| address := "0xBEEF" |} 1 1700000000 clubInvited
              {| teamId := 1; addressId := 20; role := "ADMIN";
                 acceptanceStatus := "ACCEPTED"; joinedOn := Some 1700000000%Z |}
              (acceptMembership clubGuest 1 1700000000 clubInvited).2)
    as (id & m & ? & ? & ? & _); [reflexivity|].
  by exists id, m.
Defined.

Lemma added_member_witness :
  ∃ db2,
    acceptMembership clubGuest 1 1700000000 clubInvited
    = (Returned (succeeded {| teamId := 1; addressId := 20; role := "ADMIN";
                             acceptanceStatus := "ACCEPTED";
                             joinedOn := Some 1700000000%Z |}), db2).
Proof.
  destruct (added_member_can_accept clubOwner 1 "0xBeef" clubDb
              {| teamId := 1; addressId := 20; role := "ADMIN";
                 acceptanceStatus := "PENDING"; joinedOn := None |}
              clubInvited {| address := "0xBEEF" |} 1700000000)
    as (db2 & Haccept & _); [reflexivity..|].
  by exists db2.
Defined.

Lemma accept_twice_witness :
  (acceptMembership clubGuest 1 1700000600
     (acceptMembership clubGuest 1 1700000000 clubInvited).2).1
  = Returned (failed "Membership is already accepted: 0xBEEF").
Proof.
  erewrite (accept_twice_is_refused {| address := "0xBEEF" |} 1 1700000000 1700000600
              clubInvited);
    reflexivity.
Defined.

Lemma ownerAndAddress_case p p' team addr addr' db :
  toLowerCase (address p) = toLowerCase (address p') →
  toLowerCase addr = toLowerCase addr' →
  match ownerAndAddress (Some p) team addr db,
        ownerAndAddress (Some p') team addr' db with
  | inr id, inr id' => id = id'
  | inl _, inl _ => True
  | _, _ => False
  end.
Proof.
  intros Hp Haddr. unfold ownerAndAddress. rewrite Hp, Haddr.
  destruct (teams db !! team); [|done]. case_bool_decide; [done|].
  by destruct (addresses db !! toLowerCase addr').
Qed.

(** X24: for [addNewMembership] and [removeMembership] the letter case of
    the caller's address and of the address given plays no part in what
    happens to the database, nor in whether the call succeeds and with which
    membership. *)
Theorem address_case_is_ignored p p' team addr addr' db :
  toLowerCase (address p) = toLowerCase (address p') →
  toLowerCase addr = toLowerCase addr' →
  (addNewMembership (Some p) team addr db).2
  = (addNewMembership (Some p') team addr' db).2
  ∧ (removeMembership (Some p) team addr db).2
    = (removeMembership (Some p') team addr' db).2
  ∧ ∀ m,
      ((addNewMembership (Some p) team addr db).1 = Returned (succeeded m)
       ↔ (addNewMembership (Some p') team addr' db).1 = Returned (succeeded m))
      ∧ ((removeMembership (Some p) team addr db).1 = Returned (succeeded m)
         ↔ (removeMembership (Some p') team addr' db).1 = Returned (succeeded m)).
Proof.
  intros Hp Haddr. pose proof (ownerAndAddress_case p p' team addr addr' db Hp Haddr) as Hc.
  assert (∀ payload a refusal m,
            ownerAndAddress payload team a db = inl refusal →
            refusal ≠ succeeded m) as Hrefusal.
  { intros payload a refusal m. unfold ownerAndAddress.
    destruct payload; [|by intros [= <-]].
    destruct (teams db !! team); [|by intros [= <-]].
    case_bool_decide; [by intros [= <-]|].
    destruct (addresses db !! toLowerCase a); [done|by intros [= <-]]. }
  unfold addNewMembership, removeMembership.
  destruct (ownerAndAddress (Some p) team addr db) as [r|id] eqn:H1,
           (ownerAndAddress (Some p') team addr' db) as [r'|id'] eqn:H2;
    try done.
  - split_and!; [done..|]. intros m. cbn.
    pose proof (Hrefusal _ _ _ m H1). pose proof (Hrefusal _ _ _ m H2).
    split; split; by intros [= ?].
  - subst id'. by destruct (memberships db !! (team, id)).
Qed.

Lemma address_case_witness :
  (addNewMembership clubOwner 1 "0xBEEF" clubDb).2
  = (addNewMembership (Some {| address := "0xabcd" |}) 1 "0xbeef" clubDb).2.
Proof.
  apply (address_case_is_ignored {| address := "0xAbCd" |} {| address := "0xabcd" |}
           1 "0xBEEF" "0xbeef" clubDb); reflexivity.
Defined.

(** X25: [userMemberships] answers [null] to a caller without a token, and
    otherwise lists the memberships of the caller's address, taken in lower
    case: all of them and no other. *)
Theorem userMemberships_lists_own_memberships p db :
  userMemberships None db = None
  ∧ ∃ l, userMemberships (Some p) db = Some l
         ∧ ∀ m, m ∈ l ↔ ∃ id k, addresses db !! toLowerCase (address p) = Some id
                                ∧ memberships db !! k = Some m ∧ addressId m = id.
Proof.
  split; [done|]. eexists. split; [reflexivity|]. intros m.
  unfold membershipsOfAddress.
  destruct (addresses db !! toLowerCase (address p)) as [id|]; last first.
  { split; [by intros ?%elem_of_nil|by intros (? & ? & ? & _)]. }
  rewrite list_elem_of_fmap. split.
  - intros ([k m'] & -> & Hin). apply elem_of_map_to_list in Hin.
    apply map_lookup_filter_Some in Hin as [? ?]. by exists id, k.
  - intros (id' & k & [= <-] & Hm & Hid). exists (k, m). split; [done|].
    apply elem_of_map_to_list, map_lookup_filter_Some. by split.
Qed.

(** X26: [teamMemberships] returns rows only to the owner of the team
    (letter case aside), for a known sort, with [page] and [perPage] given
    together or not at all; the total it then reports counts every
    membership of the team, whatever the page. Any refusal comes with a
    total of 0 and no row. *)
Theorem teamMemberships_only_for_the_owner findMany payload team sort perPage page db :
  (team_error (teamMemberships findMany payload team sort perPage page db) = None →
   (∃ p ownerAddress,
      payload = Some p ∧ teams db !! team = Some ownerAddress
      ∧ toLowerCase ownerAddress = toLowerCase (address p))
   ∧ sort ∈ ["date"; "role"; "acceptance_status"]
   ∧ (page = None ↔ perPage = None)
   ∧ totalCount (teamMemberships findMany payload team sort perPage page db)
     = size (filter (λ kv, teamId kv.2 = team) (memberships db)))
  ∧ (team_error (teamMemberships findMany payload team sort perPage page db) ≠ None →
     totalCount (teamMemberships findMany payload team sort perPage page db) = 0
     ∧ team_memberships (teamMemberships findMany payload team sort perPage page db)
       = []).
Proof.
  unfold teamMemberships. destruct payload as [p|]; [|done].
  assert ((if bool_decide (sort = "date") then Some JoinedOnDesc
           else if bool_decide (sort = "role") then Some RoleAsc
           else if bool_decide (sort = "acceptance_status")
                then Some AcceptanceStatusAsc else None) = None
          ∨ sort ∈ ["date"; "role"; "acceptance_status"]) as [-> | Hsort].
  { repeat case_bool_decide; subst; set_solver. }
  { done. }
  destruct (if bool_decide (sort = "date") then _ else _) as [orderBy|]; [|done].
  destruct ((bool_decide (page = None) || bool_decide (perPage = None))
            && bool_decide (page ≠ perPage)) eqn:Hpages; [done|].
  destruct (teams db !! team) as [ownerAddress|]; [|done].
  destruct (bool_decide (toLowerCase ownerAddress ≠ toLowerCase (address p)))
    eqn:Howner; [done|].
  apply bool_decide_eq_false in Howner. cbn. split; [intros _|done].
  split_and!; [|done| |done].
  - exists p, ownerAddress. split_and!; [done..|].
    by destruct (decide (toLowerCase ownerAddress = toLowerCase (address p))).
  - destruct page, perPage; cbn in Hpages; try done;
      rewrite bool_decide_eq_true_2 in Hpages by done; done.
Qed.

Lemma teamMemberships_witness :
  totalCount (teamMemberships (λ _ _ _ _ _, []) clubOwner 1 "role" (Some 10%Z)
                (Some 1%Z) clubInvited) = 1.
Proof.
  destruct (teamMemberships_only_for_the_owner (λ _ _ _ _ _, []) clubOwner 1 "role"
              (Some 10%Z) (Some 1%Z) clubInvited) as [Hok _].
  destruct Hok as (_ & _ & _ & ->); reflexivity.
Defined.


